(** * bnktool: the parse / mutate / serialize engine of [InstrumentBank]

    A shallow embedding of [src/bnktool.py].  A file opened in binary mode
    is the list of its bytes, 32-bit words are [Z] with their range written
    out, the [OrderedDict] of audio items is an association list in
    insertion order, and Python exceptions are values of [exn].  The
    progress messages the methods print are left out. *)

From Stdlib Require Import ZArith List String Ascii Bool Lia.
From Stdlib Require Import Strings.Byte.
From Stdlib Require Lists.Finite.
Import ListNotations.
Local Open Scope string_scope.
Local Open Scope list_scope.
Local Open Scope Z_scope.

Set Implicit Arguments.

(** ** Exceptions and results *)

(** The exception classes the engine can raise.  [ValueError] carries the
    message built by the source's own [raise]; [ValueError_int] is the
    [ValueError] of the builtin [int()] on the literal it rejected. *)
Inductive exn : Type :=
| StructError                       (* struct.error, from pack and unpack *)
| ValueError (msg : string)
| ValueError_int (literal : string)
| EOFError                          (* array.fromfile on a short file *)
| UnboundLocalError (name : string)
| KeyError (key : string)
| FileNotFoundError (path : string).

Inductive result (A : Type) : Type :=
| Ok (a : A)
| Raise (e : exn).
Arguments Raise {A} e.

Definition bind {A B} (c : result A) (k : A -> result B) : result B :=
  match c with
  | Ok a => k a
  | Raise e => Raise e
  end.

Declare Scope result_scope.
Delimit Scope result_scope with result.
Notation "x <- c ;; k" := (bind c (fun x => k))
  (at level 61, c at next level, right associativity) : result_scope.
Notation "' p <- c ;; k" := (bind c (fun x => let 'p := x in k))
  (at level 61, p pattern, c at next level, right associativity) : result_scope.

(** ** Bytes and little-endian words *)

Definition byte_val (b : byte) : Z := Z.of_N (Byte.to_N b).

Definition byte_of (z : Z) : byte :=
  match Byte.of_N (Z.to_N (z mod 256)) with
  | Some b => b
  | None => x00
  end.

(** One [I] field of [struct.unpack('<...')]. *)
Definition le_u32 (b0 b1 b2 b3 : byte) : Z :=
  byte_val b0 + 2 ^ 8 * byte_val b1 + 2 ^ 16 * byte_val b2 + 2 ^ 24 * byte_val b3.

Definition is_u32 (x : Z) : bool := (0 <=? x) && (x <? 2 ^ 32).

Definition le_bytes (x : Z) : list byte :=
  [byte_of x; byte_of (x / 2 ^ 8); byte_of (x / 2 ^ 16); byte_of (x / 2 ^ 24)].

(** [pack('<I', x)]: [struct.error] when [x] is not an unsigned 32-bit value. *)
Definition pack_I (x : Z) : result (list byte) :=
  if is_u32 x then Ok (le_bytes x) else Raise StructError.

Definition pack_II (x y : Z) : result (list byte) :=
  if is_u32 x && is_u32 y then Ok (le_bytes x ++ le_bytes y) else Raise StructError.

Definition pack_III (x y z : Z) : result (list byte) :=
  if is_u32 x && is_u32 y && is_u32 z
  then Ok (le_bytes x ++ le_bytes y ++ le_bytes z)
  else Raise StructError.

(** [unpack('<I', bs)] and its wider forms: [struct.error] unless the
    buffer has exactly the size of the format. *)
Definition unpack_I (bs : list byte) : result Z :=
  match bs with
  | [a0; a1; a2; a3] => Ok (le_u32 a0 a1 a2 a3)
  | _ => Raise StructError
  end.

Definition unpack_II (bs : list byte) : result (Z * Z) :=
  match bs with
  | [a0; a1; a2; a3; b0; b1; b2; b3] =>
      Ok (le_u32 a0 a1 a2 a3, le_u32 b0 b1 b2 b3)
  | _ => Raise StructError
  end.

Definition unpack_III (bs : list byte) : result (Z * Z * Z) :=
  match bs with
  | [a0; a1; a2; a3; b0; b1; b2; b3; c0; c1; c2; c3] =>
      Ok (le_u32 a0 a1 a2 a3, le_u32 b0 b1 b2 b3, le_u32 c0 c1 c2 c3)
  | _ => Raise StructError
  end.

Definition unpack_IIII (bs : list byte) : result (list Z) :=
  match bs with
  | [a0; a1; a2; a3; b0; b1; b2; b3; c0; c1; c2; c3; d0; d1; d2; d3] =>
      Ok [le_u32 a0 a1 a2 a3; le_u32 b0 b1 b2 b3;
          le_u32 c0 c1 c2 c3; le_u32 d0 d1 d2 d3]
  | _ => Raise StructError
  end.

(** ** A file opened for reading *)

(** The state of a file object is the list of bytes not yet consumed. *)
Definition Reader (A : Type) : Type := list byte -> result (A * list byte).

Definition rret {A} (a : A) : Reader A := fun s => Ok (a, s).

Definition rbind {A B} (c : Reader A) (k : A -> Reader B) : Reader B :=
  fun s => match c s with
           | Ok (a, s') => k a s'
           | Raise e => Raise e
           end.

Definition lift {A} (c : result A) : Reader A :=
  fun s => match c with
           | Ok a => Ok (a, s)
           | Raise e => Raise e
           end.

Declare Scope reader_scope.
Delimit Scope reader_scope with reader.
Notation "x <- c ;; k" := (rbind c (fun x => k))
  (at level 61, c at next level, right associativity) : reader_scope.
Notation "' p <- c ;; k" := (rbind c (fun x => let 'p := x in k))
  (at level 61, p pattern, c at next level, right associativity) : reader_scope.

(** [file.read(n)]: at most [n] bytes, fewer at the end of the file. *)
Definition read (n : Z) : Reader (list byte) :=
  fun s => Ok (firstn (Z.to_nat n) s, skipn (Z.to_nat n) s).

(** [file.read()]: everything that is left. *)
Definition read_all : Reader (list byte) :=
  fun s => Ok (s, []).

(** [array('b').fromfile(file, n)]: [EOFError] when fewer than [n] bytes
    are left. *)
Definition fromfile (n : Z) : Reader (list byte) :=
  fun s => if (Z.of_nat (List.length s) <? n)
           then Raise EOFError
           else Ok (firstn (Z.to_nat n) s, skipn (Z.to_nat n) s).

(** ** The builtins [str], [int] and the format [08X]

    Python text is modelled by [string]; its characters are the code
    points below 256. *)

Definition char_code (c : ascii) : Z := Z.of_N (N_of_ascii c).
Definition chr (z : Z) : ascii := ascii_of_N (Z.to_N z).

Definition digit_char (d : Z) : ascii := chr (48 + d).

Definition digit_val (c : ascii) : option Z :=
  let n := char_code c in
  if (48 <=? n) && (n <=? 57) then Some (n - 48) else None.

(** The digits of [n], most significant first, in front of [acc]. *)
Fixpoint str_digits (fuel : nat) (n : Z) (acc : string) : string :=
  let acc' := String (digit_char (n mod 10)) acc in
  match fuel with
  | O => acc'
  | S fuel' => if n <? 10 then acc' else str_digits fuel' (n / 10) acc'
  end.

(** [str(n)] for an integer [n]. *)
Definition str (n : Z) : string :=
  if n <? 0
  then String "-" (str_digits (Z.to_nat (Z.log2 (- n))) (- n) "")
  else str_digits (Z.to_nat (Z.log2 n)) n "".

(** The characters [str.split] treats as white space. *)
Definition is_space (c : ascii) : bool :=
  let n := char_code c in
  ((9 <=? n) && (n <=? 13)) || ((28 <=? n) && (n <=? 32))
  || (n =? 133) || (n =? 160).

(** The characters [int] skips around a literal: the six of ASCII, and
    the two above 127 that it first turns into a blank.  The separators
    28 to 31 are not among them. *)
Definition is_int_space (c : ascii) : bool :=
  let n := char_code c in
  ((9 <=? n) && (n <=? 13)) || (n =? 32) || (n =? 133) || (n =? 160).

(** The text without the white space [int] skips in front of the literal,
    and behind it. *)
Fixpoint lstrip (s : string) : string :=
  match s with
  | String c r => if is_int_space c then lstrip r else s
  | EmptyString => EmptyString
  end.

Fixpoint rstrip (s : string) : string :=
  match s with
  | String c r =>
      match rstrip r with
      | EmptyString => if is_int_space c then EmptyString else String c EmptyString
      | r' => String c r'
      end
  | EmptyString => EmptyString
  end.

(** Decimal digits, single underscores allowed between two digits.
    [after_digit] tells whether the previous character was a digit. *)
Fixpoint parse_digits (acc : Z) (after_digit : bool) (s : string) : option Z :=
  match s with
  | EmptyString => if after_digit then Some acc else None
  | String c r =>
      match digit_val c with
      | Some d => parse_digits (10 * acc + d) true r
      | None =>
          if Ascii.eqb c "_" && after_digit then parse_digits acc false r else None
      end
  end.

Definition parse_int (s : string) : option Z :=
  match s with
  | String "-" r => option_map Z.opp (parse_digits 0 false r)
  | String "+" r => parse_digits 0 false r
  | _ => parse_digits 0 false s
  end.

(** The number of digits of a literal, leading zeros included. *)
Fixpoint count_digits (s : string) : Z :=
  match s with
  | EmptyString => 0
  | String c r =>
      match digit_val c with
      | Some _ => 1 + count_digits r
      | None => count_digits r
      end
  end.

(** [sys.get_int_max_str_digits()], which the program leaves at its
    default. *)
Definition MAX_STR_DIGITS : Z := 4300.

(** [int(s)] for a text [s], base 10: white space around the literal is
    dropped, a sign may come first, and the digits may have leading
    zeros.  A literal of more than [MAX_STR_DIGITS] digits is refused
    with a [ValueError] too. *)
Definition int (s : string) : result Z :=
  let literal := rstrip (lstrip s) in
  match parse_int literal with
  | Some z =>
      if count_digits literal <=? MAX_STR_DIGITS
      then Ok z
      else Raise (ValueError_int s)
  | None => Raise (ValueError_int s)
  end.

Definition hex_char (d : Z) : ascii :=
  if d <? 10 then chr (48 + d) else chr (55 + d).

Fixpoint hex_digits (n : nat) (x : Z) (acc : string) : string :=
  match n with
  | O => acc
  | S n' => hex_digits n' (x / 16) (String (hex_char (x mod 16)) acc)
  end.

(** [f'{x:08X}'] for [0 <= x]: upper-case hexadecimal, at least 8 digits. *)
Definition format_08X (x : Z) : string :=
  hex_digits (Nat.max 8 (Z.to_nat (Z.log2 x / 4 + 1))) x "".

(** ** [collections.OrderedDict] with text keys *)

Module OrderedDict.
Section Dict.
Variable V : Type.

Definition t : Type := list (string * V).

Definition keys (d : t) : list string := map fst d.
Definition values (d : t) : list V := map snd d.

(** [d[k] = v]: an existing key keeps its place, a new key goes last. *)
Fixpoint setitem (k : string) (v : V) (d : t) : t :=
  match d with
  | [] => [(k, v)]
  | (k', v') :: rest =>
      if String.eqb k' k then (k', v) :: rest
      else (k', v') :: setitem k v rest
  end.

(** [d[k]]. *)
Fixpoint getitem (k : string) (d : t) : result V :=
  match d with
  | [] => Raise (KeyError k)
  | (k', v') :: rest => if String.eqb k' k then Ok v' else getitem k rest
  end.

Definition contains (k : string) (d : t) : bool :=
  existsb (String.eqb k) (keys d).
End Dict.
End OrderedDict.

(** ** The data model *)

(** [AudioItem = namedtuple('AudioItem', ('len', 'data'))]; [data] is an
    [array('b')], one element per byte of the file. *)
Record AudioItem : Type := mkAudioItem { len : Z; data : list byte }.

Record InstrumentBank : Type := mkBank {
  header : list Z;
  audio_items : OrderedDict.t AudioItem;
  trailing_data : list byte;
  dirty : bool
}.

Definition MAGIC_DIDX : Z := 0x58444944.
Definition MAGIC_AUDIO : Z := 0x41544144.

(** The message of the [ValueError] raised on a wrong chunk magic. *)
Definition magic_message (expected magic : Z) : string :=
  ("AUDIO magic number expected (" ++ format_08X expected ++ "), got "
   ++ format_08X magic ++ " instead")%string.

(** [-n % 16]: the bytes that align the item after one of [n] bytes. *)
Definition padding_of (n : Z) : Z := (- n) mod 16.

(** ** [InstrumentBank._parse] *)

Definition raise {A} (e : exn) : Reader A := fun _ => Raise e.

(** The loop over the words that follow the 16-byte preamble:
    [while current_pos < self.header[1] + 8] reads one more word.  Each
    turn consumes four bytes of the file, on which the recursion goes. *)
Fixpoint read_header (header1 current_pos : Z) (s : list byte) {struct s}
  : result (list Z * list byte) :=
  if current_pos <? header1 + 8 then
    match s with
    | a0 :: a1 :: a2 :: a3 :: s' =>
        match read_header header1 (current_pos + 4) s' with
        | Ok (ws, r) => Ok (le_u32 a0 a1 a2 a3 :: ws, r)
        | Raise e => Raise e
        end
    | _ => Raise StructError
    end
  else Ok ([], s).

(** The loop [for _ in range(num_items)] over the index table. *)
Fixpoint read_index (num_items : nat) (items : OrderedDict.t AudioItem)
  : Reader (OrderedDict.t AudioItem) :=
  match num_items with
  | O => rret items
  | S n =>
      (bs <- read 12 ;;
       '(id, offset, length) <- lift (unpack_III bs) ;;
       let audio := mkAudioItem length [] in
       read_index n (OrderedDict.setitem (str id) audio items))%reader
  end.

(** The loop [for audio in self.audio_items.values()] over the payloads;
    [padding] is the value left by the previous turn. *)
Fixpoint read_audio (items : OrderedDict.t AudioItem) (padding : Z)
  : Reader (OrderedDict.t AudioItem) :=
  match items with
  | [] => rret []
  | (id, audio) :: rest =>
      (_ <- read padding ;;
       bytes <- fromfile (len audio) ;;
       let audio' := mkAudioItem (len audio) (data audio ++ bytes) in
       rest' <- read_audio rest (padding_of (len audio)) ;;
       rret ((id, audio') :: rest'))%reader
  end.

Definition parse_file : Reader InstrumentBank :=
  (bs <- read 16 ;;
   header <- lift (unpack_IIII bs) ;;
   more <- read_header (nth 1 header 0) 16 ;;
   let header := header ++ more in
   bs <- read 8 ;;
   '(magic, length) <- lift (unpack_II bs) ;;
   if negb (magic =? MAGIC_DIDX)
   then raise (ValueError (magic_message MAGIC_DIDX magic))
   else
     let num_items := length / 12 in
     items <- read_index (Z.to_nat num_items) [] ;;
     bs <- read 8 ;;
     '(magic, length) <- lift (unpack_II bs) ;;
     if negb (magic =? MAGIC_AUDIO)
     then raise (ValueError (magic_message MAGIC_AUDIO magic))
     else
       items <- read_audio items 0 ;;
       trailing <- read_all ;;
       rret (mkBank header items trailing false))%reader.

(** [InstrumentBank(bnk_file)]: the bank read from the bytes of the file,
    or the exception that escapes the constructor. *)
Definition _parse (file : list byte) : result InstrumentBank :=
  match parse_file file with
  | Ok (bank, _) => Ok bank
  | Raise e => Raise e
  end.

(** ** [InstrumentBank.to_file] *)

(** [outfile.writelines(pack('<I', i) for i in self.header)]. *)
Fixpoint pack_words (ws : list Z) : result (list byte) :=
  match ws with
  | [] => Ok []
  | i :: rest =>
      (b <- pack_I i ;;
       bs <- pack_words rest ;;
       Ok (b ++ bs))%result
  end.

(** The loop that writes the index table.  The local [padding] is bound
    by the first turn only: [None] stands for the unbound variable. *)
Fixpoint write_index (items : OrderedDict.t AudioItem) (offset : Z)
    (padding : option Z) : result (list byte * option Z) :=
  match items with
  | [] => Ok ([], padding)
  | (id, audio) :: rest =>
      (i <- int id ;;
       entry <- pack_III i offset (len audio) ;;
       let padding := padding_of (len audio) in
       '(out, last) <- write_index rest (offset + (len audio + padding)) (Some padding) ;;
       Ok (entry ++ out, last))%result
  end.

(** [(audio.len + 15) & ~15]. *)
Definition align16 (n : Z) : Z := Z.land (n + 15) (Z.lnot 15).

Definition sum (zs : list Z) : Z := fold_left Z.add zs 0.

(** The loop that writes the payloads, each after the padding left by
    the previous one. *)
Fixpoint write_audio (items : OrderedDict.t AudioItem) (padding : Z) : list byte :=
  match items with
  | [] => []
  | (_, audio) :: rest =>
      repeat x00 (Z.to_nat padding) ++ data audio
      ++ write_audio rest (padding_of (len audio))
  end.

(** The bytes of the file written by [to_file], when it returns. *)
Definition to_file (self : InstrumentBank) : result (list byte) :=
  (hdr <- pack_words (header self) ;;
   let items := audio_items self in
   didx <- pack_II MAGIC_DIDX (Z.of_nat (List.length items) * 12) ;;
   '(index, padding) <- write_index items 0 None ;;
   padding <- match padding with
              | Some p => Ok p
              | None => Raise (UnboundLocalError "padding")
              end ;;
   let length := sum (map (fun audio => align16 (len audio)) (OrderedDict.values items))
                 - padding in
   audio_hdr <- pack_II MAGIC_AUDIO length ;;
   Ok (hdr ++ didx ++ index ++ audio_hdr ++ write_audio items 0
       ++ trailing_data self))%result.

(** ** [update] and [empty] *)

Section Mutation.
(** [os.path.splitext], and the files [open(file, 'rb')] finds. *)
Variable splitext : string -> string * string.
Variable fs : string -> option (list byte).

Definition set_item (id : string) (audio : AudioItem) (self : InstrumentBank)
  : InstrumentBank :=
  mkBank (header self) (OrderedDict.setitem id audio (audio_items self))
         (trailing_data self) true.

(** The bank after the call, and the exception that ended it if any:
    what was assigned before an exception stays assigned. *)
Fixpoint update (to_update : list string) (self : InstrumentBank)
  : InstrumentBank * option exn :=
  match to_update with
  | [] => (self, None)
  | file :: rest =>
      let '(id, ext) := splitext file in
      match fs file with
      | None => (self, Some (FileNotFoundError file))
      | Some bytes =>
          update rest
            (set_item id (mkAudioItem (Z.of_nat (List.length bytes)) bytes) self)
      end
  end.

Fixpoint empty (to_remove : list string) (self : InstrumentBank)
  : InstrumentBank * option exn :=
  match to_remove with
  | [] => (self, None)
  | name :: rest =>
      let '(id, ext) := splitext name in
      empty rest (set_item id (mkAudioItem 0 []) self)
  end.
End Mutation.

(** ** Notions used in the statements *)

Fixpoint no_space (s : string) : bool :=
  match s with
  | EmptyString => true
  | String c r => negb (is_space c) && no_space r
  end.

Definition words (ws : list Z) : list byte := flat_map le_bytes ws.

(** An entry as the index loop leaves it: the key is the decimal text of
    a 32-bit id, the length is a 32-bit value. *)
Definition indexed (e : string * AudioItem) : Prop :=
  (exists id, 0 <= id < 2 ^ 32 /\ fst e = str id) /\ 0 <= len (snd e) < 2 ^ 32.

Definition blank (e : string * AudioItem) : Prop := data (snd e) = [].

(** The invariant of the data model: [data] holds exactly [len] bytes. *)
Definition loaded (e : string * AudioItem) : Prop :=
  Z.of_nat (List.length (data (snd e))) = len (snd e).

(** The shape of every bank returned by the parser. *)
Record parsed (bank : InstrumentBank) : Prop := {
  parsed_header :
    exists w0 w1 w2 w3 more,
      header bank = [w0; w1; w2; w3] ++ more
      /\ Forall (fun w => 0 <= w < 2 ^ 32) (header bank)
      /\ forall r, read_header w1 16 (words more ++ r) = Ok (more, r);
  parsed_items : Forall (fun e => indexed e /\ loaded e) (audio_items bank);
  parsed_keys : NoDup (OrderedDict.keys (audio_items bank));
  parsed_count : Z.of_nat (List.length (audio_items bank)) * 12 < 2 ^ 32;
  parsed_dirty : dirty bank = false
}.

(** An entry of the mapping before its payload is read. *)
Definition erase (e : string * AudioItem) : string * AudioItem :=
  (fst e, mkAudioItem (len (snd e)) []).

(** The payload bytes up to the last byte of the last item: every item
    but the last counts with its padding. *)
Fixpoint span (items : OrderedDict.t AudioItem) : Z :=
  match items with
  | [] => 0
  | (_, audio) :: rest =>
      match rest with
      | [] => len audio
      | _ => len audio + padding_of (len audio) + span rest
      end
  end.

(** The value of the local [padding] when the index loop ends. *)
Fixpoint last_padding (items : OrderedDict.t AudioItem) (padding : option Z)
  : option Z :=
  match items with
  | [] => padding
  | (_, audio) :: rest => last_padding rest (Some (padding_of (len audio)))
  end.

Definition aligned_sum (items : OrderedDict.t AudioItem) : Z :=
  sum (map (fun audio => align16 (len audio)) (OrderedDict.values items)).

(** The spec's wording for [(n + 15) & ~15]: [n] rounded up to the next
    multiple of 16. *)
Definition round_up16 (n : Z) : Z := 16 * ((n + 15) / 16).

(** The key [k] has an integer value that fits an unsigned 32-bit word. *)
Definition id_fits (k : string) : Prop :=
  exists v, int k = Ok v /\ 0 <= v < 2 ^ 32.

(** An entry [to_file] can put in the index table: the key has an integer
    value of 32 bits, and so has the length. *)
Definition packable (e : string * AudioItem) : Prop :=
  id_fits (fst e) /\ 0 <= len (snd e) < 2 ^ 32.

(** The index table for the given ids and lengths, offsets from [offset]. *)
Fixpoint index_table (entries : list (Z * Z)) (offset : Z) : list byte :=
  match entries with
  | [] => []
  | (id, length) :: rest =>
      (le_bytes id ++ le_bytes offset ++ le_bytes length)
      ++ index_table rest (offset + (length + padding_of length))
  end.

(** The banks a session can hold: the parsed one, and what any [update]
    or [empty] call leaves, with whatever files it finds. *)
Inductive reachable : InstrumentBank -> Prop :=
| reachable_parse file bank :
    _parse file = Ok bank -> reachable bank
| reachable_update splitext fs to_update bank :
    reachable bank -> reachable (fst (update splitext fs to_update bank))
| reachable_empty splitext to_remove bank :
    reachable bank -> reachable (fst (empty splitext to_remove bank)).

(** ** The two chunk descriptors

    [parse_file] from the index-chunk descriptor on, and from the
    payload-chunk descriptor on. *)

Definition parse_audio_chunk (header : list Z) (items : OrderedDict.t AudioItem)
  : Reader InstrumentBank :=
  (bs <- read 8 ;;
   '(magic, length) <- lift (unpack_II bs) ;;
   if negb (magic =? MAGIC_AUDIO)
   then raise (ValueError (magic_message MAGIC_AUDIO magic))
   else
     items <- read_audio items 0 ;;
     trailing <- read_all ;;
     rret (mkBank header items trailing false))%reader.

Definition parse_index_chunk (header : list Z) : Reader InstrumentBank :=
  (bs <- read 8 ;;
   '(magic, length) <- lift (unpack_II bs) ;;
   if negb (magic =? MAGIC_DIDX)
   then raise (ValueError (magic_message MAGIC_DIDX magic))
   else
     let num_items := length / 12 in
     items <- read_index (Z.to_nat num_items) [] ;;
     parse_audio_chunk header items)%reader.

(** ** A model of [posixpath.splitext], to run the mutations *)

(** [p.rfind(c)]: the index of the last [c] in [p], or -1. *)
Fixpoint rfind_from (c : ascii) (p : string) (i found : Z) : Z :=
  match p with
  | EmptyString => found
  | String c' r => rfind_from c r (i + 1) (if Ascii.eqb c' c then i else found)
  end.

Definition rfind (c : ascii) (p : string) : Z := rfind_from c p 0 (-1).

Fixpoint all_dots (s : string) : bool :=
  match s with
  | EmptyString => true
  | String c r => Ascii.eqb c "." && all_dots r
  end.

(** The extension starts at the last dot of the last path component,
    unless that component has only leading dots before it. *)
Definition posix_splitext (p : string) : string * string :=
  let sepIndex := rfind "/" p in
  let dotIndex := rfind "." p in
  if sepIndex <? dotIndex then
    let name_start := Z.to_nat (sepIndex + 1) in
    let dot := Z.to_nat dotIndex in
    if all_dots (substring name_start (dot - name_start) p)
    then (p, "")
    else (substring 0 dot p, substring dot (String.length p - dot) p)
  else (p, "").

(** ** Banks and files used as concrete inputs *)

Definition three_items : OrderedDict.t AudioItem :=
  [("1", mkAudioItem 10 (repeat x01 10));
   ("2", mkAudioItem 20 (repeat x02 20));
   ("3", mkAudioItem 0 [])].

Definition three_item_bank : InstrumentBank :=
  mkBank [0x44484B42; 16; 1; 7; 0; 0] three_items [xfe; xff] false.

Definition three_item_file : list byte :=
  words [0x44484B42; 16; 1; 7; 0; 0;
         MAGIC_DIDX; 36; 1; 0; 10; 2; 16; 20; 3; 48; 0;
         MAGIC_AUDIO; 48]
  ++ repeat x01 10 ++ repeat x00 6 ++ repeat x02 20 ++ repeat x00 12
  ++ [xfe; xff].

Definition empty_bank : InstrumentBank := mkBank [0x44484B42; 8; 1; 7] [] [] false.

Definition empty_bank_file : list byte :=
  words [0x44484B42; 8; 1; 7; MAGIC_DIDX; 0; MAGIC_AUDIO; 0].

Definition one_file (name : string) (bytes : list byte) (path : string)
  : option (list byte) :=
  if String.eqb path name then Some bytes else None.

Definition zero_magic_file : list byte :=
  words [0x44484B42; 8; 1; 7; 0; 12; 1; 0; 0; MAGIC_AUDIO; 0].

Definition odd_index_file : list byte :=
  words [0x44484B42; 8; 1; 7; MAGIC_DIDX; 13; 5; 0; 0; MAGIC_AUDIO; 0].

Definition named_bank : InstrumentBank :=
  mkBank [0x44484B42; 8; 1; 7] [("intro", mkAudioItem 1 [x00])] [] true.

(** A bank as four [update] calls leave it, with keys [int] reads but
    [str] never gives. *)
Definition loose_id_bank : InstrumentBank :=
  mkBank [0x44484B42; 8; 1; 7]
         [("007", mkAudioItem 1 [x2a]); (" 8", mkAudioItem 1 [x2b]);
          ("+9", mkAudioItem 1 [x2c]); ("1_0", mkAudioItem 1 [x2d])]
         [] true.

(** ** Notions used in the further properties *)

(** The key is the decimal text [str] gives for a 32-bit id. *)
Definition decimal_id (k : string) : Prop :=
  exists id, 0 <= id < 2 ^ 32 /\ k = str id.

(** ** [InstrumentBank.extract] *)

Section Extraction.
(** [os.path.splitext]. *)
Variable splitext : string -> string * string.

(** The loop of [extract]: the files written, in the order they are
    written, and the [KeyError] that ended the loop if any.  Opening
    [f'{id}.wem'] for writing is taken to succeed. *)
Fixpoint extract_loop (files : list string) (self : InstrumentBank)
  : list (string * list byte) * option exn :=
  match files with
  | [] => ([], None)
  | file :: rest =>
      let '(id, ext) := splitext file in
      match OrderedDict.getitem id (audio_items self) with
      | Raise e => ([], Some e)
      | Ok audio =>
          let '(written, e) := extract_loop rest self in
          ((id ++ ".wem", data audio)%string :: written, e)
      end
  end.

(** [extract(files)]; [None] and the empty list stand for every item. *)
Definition extract (files : option (list string)) (self : InstrumentBank)
  : list (string * list byte) * option exn :=
  let files :=
    match files with
    | None | Some [] =>
        map (fun id => (id ++ ".wem")%string) (OrderedDict.keys (audio_items self))
    | Some files => files
    end in
  extract_loop files self.
End Extraction.

(** ** [names_from_file] and [expand_item_list] *)

Definition flush (word : string) (found : list string) : list string :=
  match word with
  | EmptyString => found
  | _ => word :: found
  end.

(** [text.split()]: the maximal runs of characters that are not white
    space; [word] is the run being read. *)
Fixpoint split_from (text word : string) : list string :=
  match text with
  | EmptyString => flush word []
  | String c r =>
      if is_space c then flush word (split_from r "")
      else split_from r (word ++ String c "")
  end.

Definition split (text : string) : list string := split_from text "".

Definition startswith_bracket (i : string) : bool :=
  match i with
  | String c _ => Ascii.eqb c "["
  | EmptyString => false
  end.

Fixpoint endswith_bracket (i : string) : bool :=
  match i with
  | EmptyString => false
  | String c EmptyString => Ascii.eqb c "]"
  | String _ r => endswith_bracket r
  end.

Fixpoint drop_last (s : string) : string :=
  match s with
  | EmptyString => EmptyString
  | String _ EmptyString => EmptyString
  | String c r => String c (drop_last r)
  end.

(** [i[1:-1]]. *)
Definition inner (i : string) : string :=
  match i with
  | String _ r => drop_last r
  | EmptyString => EmptyString
  end.

Section ItemLists.
(** The text [open(filename).read()] gives, for the files that exist. *)
Variable read_text : string -> option string.

Definition names_from_file (filename : string) : result (list string) :=
  match read_text filename with
  | None => Raise (FileNotFoundError filename)
  | Some text =>
      Ok (filter (fun name => negb (String.eqb name "")) (split text))
  end.

Fixpoint expand_item_list (items : list string) : result (list string) :=
  match items with
  | [] => Ok []
  | i :: rest =>
      if startswith_bracket i && endswith_bracket i
      then (names <- names_from_file (inner i) ;;
            result <- expand_item_list rest ;;
            Ok (names ++ result))%result
      else (result <- expand_item_list rest ;;
            Ok (i :: result))%result
  end.
End ItemLists.

(** One name per line. *)
Definition lines (names : list string) : string :=
  fold_right (fun name text => (name ++ String "010" text)%string) "" names.

(** ** The files of the working directory *)

(** A path is bound to the bytes of its first entry.  Directories and
    permissions are left out: a file that exists can be read and renamed,
    and any file can be created. *)
Definition FileSystem : Type := list (string * list byte).

Fixpoint fs_lookup (fs : FileSystem) (path : string) : option (list byte) :=
  match fs with
  | [] => None
  | (p, bytes) :: rest => if String.eqb p path then Some bytes else fs_lookup rest path
  end.

(** [os.path.exists(path)]. *)
Definition path_exists (fs : FileSystem) (path : string) : bool :=
  match fs_lookup fs path with
  | Some _ => true
  | None => false
  end.

(** What [open(path, 'wb')], the writes and the end of the [with] block
    leave. *)
Definition fs_write (path : string) (bytes : list byte) (fs : FileSystem)
  : FileSystem :=
  (path, bytes) :: fs.

Definition fs_remove (path : string) (fs : FileSystem) : FileSystem :=
  filter (fun entry => negb (String.eqb (fst entry) path)) fs.

(** [os.rename(src, dst)], as POSIX has it. *)
Definition rename (src dst : string) (fs : FileSystem) : result FileSystem :=
  match fs_lookup fs src with
  | None => Raise (FileNotFoundError src)
  | Some bytes => Ok (fs_write dst bytes (fs_remove src fs))
  end.

(** ** [to_file] with what reaches the file when it raises *)

(** The bytes written so far, and the value or the exception. *)
Definition Writer (A : Type) : Type := (list byte * result A)%type.

Definition wbind {A B} (c : Writer A) (k : A -> Writer B) : Writer B :=
  match c with
  | (out, Ok a) => let '(out', r) := k a in (out ++ out', r)
  | (out, Raise e) => (out, Raise e)
  end.

Definition write (bytes : list byte) : Writer unit := (bytes, Ok tt).

Definition wlift {A} (c : result A) : Writer A := ([], c).

Declare Scope writer_scope.
Delimit Scope writer_scope with writer.
Notation "x <- c ;; k" := (wbind c (fun x => k))
  (at level 61, c at next level, right associativity) : writer_scope.

(** [outfile.writelines(pack('<I', i) for i in self.header)]: each word
    is written as soon as it is packed. *)
Fixpoint write_header (ws : list Z) : Writer unit :=
  match ws with
  | [] => write []
  | i :: rest =>
      (b <- wlift (pack_I i) ;;
       _ <- write b ;;
       write_header rest)%writer
  end.

Fixpoint write_index_entries (items : OrderedDict.t AudioItem) (offset : Z)
    (padding : option Z) : Writer (option Z) :=
  match items with
  | [] => wlift (Ok padding)
  | (id, audio) :: rest =>
      (i <- wlift (int id) ;;
       entry <- wlift (pack_III i offset (len audio)) ;;
       _ <- write entry ;;
       let padding := padding_of (len audio) in
       write_index_entries rest (offset + (len audio + padding)) (Some padding))%writer
  end.

Definition write_file (self : InstrumentBank) : Writer unit :=
  (_ <- write_header (header self) ;;
   let items := audio_items self in
   didx <- wlift (pack_II MAGIC_DIDX (Z.of_nat (List.length items) * 12)) ;;
   _ <- write didx ;;
   padding <- write_index_entries items 0 None ;;
   padding <- wlift (match padding with
                     | Some p => Ok p
                     | None => Raise (UnboundLocalError "padding")
                     end) ;;
   let length := sum (map (fun audio => align16 (len audio)) (OrderedDict.values items))
                 - padding in
   audio_hdr <- wlift (pack_II MAGIC_AUDIO length) ;;
   _ <- write audio_hdr ;;
   _ <- write (write_audio items 0) ;;
   write (trailing_data self))%writer.

(** ** [InstrumentBank.close] *)

Fixpoint zeros (n : nat) : string :=
  match n with
  | O => EmptyString
  | S n' => String "0" (zeros n')
  end.

(** [f'{i:03d}'] for [0 <= i]. *)
Definition format_03d (i : Z) : string :=
  (zeros (3 - String.length (str i)) ++ str i)%string.

(** [f'{self.file}.{i:03d}']. *)
Definition backup_name (file : string) (i : Z) : string :=
  (file ++ "." ++ format_03d i)%string.

(** The loop [while exists(f'{self.file}.{i:03d}'): i += 1].  A turn that
    goes on has found one more file, so the files that exist bound the
    number of turns. *)
Fixpoint free_index (fs : FileSystem) (file : string) (turns : nat) (i : Z) : Z :=
  if path_exists fs (backup_name file i) then
    match turns with
    | O => i
    | S turns' => free_index fs file turns' (i + 1)
    end
  else i.

(** [close()] of a bank opened from [file]: the files it leaves and the
    exception it raises, if any. *)
Definition close (file : string) (self : InstrumentBank) (fs : FileSystem)
  : FileSystem * option exn :=
  if dirty self then
    let i := free_index fs file (List.length fs) 0 in
    match rename file (backup_name file i) fs with
    | Raise e => (fs, Some e)
    | Ok fs' =>
        let '(bytes, r) := write_file self in
        (fs_write file bytes fs',
         match r with
         | Ok _ => None
         | Raise e => Some e
         end)
    end
  else (fs, None).

(** ** The script *)

(** The attributes of [args] the script reads. *)
Record Args : Type := mkArgs {
  arg_bank : string;
  arg_list : bool;
  arg_extract : option (list string);
  arg_update : option (list string);
  arg_empty : option (list string)
}.

Section Script.
Variable splitext : string -> string * string.
(** The text a file opened in text mode gives for its bytes. *)
Variable decode : list byte -> string.

Definition read_text_of (fs : FileSystem) (path : string) : option string :=
  option_map decode (fs_lookup fs path).

Definition write_all (written : list (string * list byte)) (fs : FileSystem)
  : FileSystem :=
  fold_left (fun fs w => fs_write (fst w) (snd w) fs) written fs.

(** [if args.extract is not None: bank.extract(expand_item_list(args.extract))]. *)
Definition run_extract (args : Args) (bank : InstrumentBank) (fs : FileSystem)
  : FileSystem * option exn :=
  match arg_extract args with
  | None => (fs, None)
  | Some names =>
      match expand_item_list (read_text_of fs) names with
      | Raise e => (fs, Some e)
      | Ok files =>
          let '(written, e) := extract splitext (Some files) bank in
          (write_all written fs, e)
      end
  end.

(** [if args.update: bank.update(expand_item_list(args.update))]. *)
Definition run_update (args : Args) (bank : InstrumentBank) (fs : FileSystem)
  : InstrumentBank * option exn :=
  match arg_update args with
  | None | Some [] => (bank, None)
  | Some names =>
      match expand_item_list (read_text_of fs) names with
      | Raise e => (bank, Some e)
      | Ok files => update splitext (fs_lookup fs) files bank
      end
  end.

(** [if args.empty: bank.empty(expand_item_list(args.empty))]. *)
Definition run_empty (args : Args) (bank : InstrumentBank) (fs : FileSystem)
  : InstrumentBank * option exn :=
  match arg_empty args with
  | None | Some [] => (bank, None)
  | Some names =>
      match expand_item_list (read_text_of fs) names with
      | Raise e => (bank, Some e)
      | Ok files => empty splitext files bank
      end
  end.

(** The body of the [with] block; [print_list] only prints. *)
Definition with_body (args : Args) (bank : InstrumentBank) (fs : FileSystem)
  : InstrumentBank * FileSystem * option exn :=
  match run_extract args bank fs with
  | (fs, Some e) => (bank, fs, Some e)
  | (fs, None) =>
      match run_update args bank fs with
      | (bank, Some e) => (bank, fs, Some e)
      | (bank, None) =>
          let '(bank, e) := run_empty args bank fs in (bank, fs, e)
      end
  end.

(** The script after [parse_args]: the constructor, the [with] block and
    [__exit__], which calls [close] whether the block raised or not and
    lets the exception of the block through. *)
Definition main (args : Args) (fs : FileSystem) : FileSystem * option exn :=
  match fs_lookup fs (arg_bank args) with
  | None => (fs, Some (FileNotFoundError (arg_bank args)))
  | Some bytes =>
      match _parse bytes with
      | Raise e => (fs, Some e)
      | Ok bank =>
          let '(bank, fs, e) := with_body args bank fs in
          let '(fs, e') := close (arg_bank args) bank fs in
          (fs, match e' with
               | Some _ => e'
               | None => e
               end)
      end
  end.
End Script.

(** ** [InstrumentBank.print_list] *)

(** The lines [print_list] prints, in order. *)
Definition print_list (verbose : bool) (self : InstrumentBank) : list string :=
  (if verbose
   then [(str (Z.of_nat (List.length (audio_items self))) ++ " audio items")%string]
   else [])
  ++ map (fun entry =>
            let '(id, audio) := entry in
            if verbose
            then (id ++ ".wem : " ++ str (len audio) ++ " bytes")%string
            else (id ++ ".wem")%string)
         (audio_items self).

(** ** More concrete inputs and notions *)

Definition bad_audio_magic_file : list byte :=
  words [0x44484B42; 8; 1; 7; MAGIC_DIDX; 12; 5; 0; 0; 0x41544145; 0].

Definition repeated_id_file : list byte :=
  words [0x44484B42; 8; 1; 7; MAGIC_DIDX; 24; 5; 0; 3; 5; 16; 1; MAGIC_AUDIO; 1]
  ++ [x2a].

(** A name as [split] returns them. *)
Definition clean_name (name : string) : Prop :=
  name <> "" /\ no_space name = true.

Definition one_text (name text path : string) : option string :=
  if String.eqb path name then Some text else None.

Definition sample_fs : FileSystem :=
  [("sb.bnk.000", [x00]); ("sb.bnk", three_item_file); ("7.wem", [x0a; x0b])].

Definition updated_bank : InstrumentBank :=
  fst (update posix_splitext (fs_lookup sample_fs) ["7.wem"] three_item_bank).

Definition named_fs : FileSystem :=
  [("sb.bnk", three_item_file); ("intro.wem", [x0a])].

Definition renamed_bank : InstrumentBank :=
  fst (update posix_splitext (fs_lookup named_fs) ["intro.wem"] three_item_bank).

Definition extract_args : Args :=
  mkArgs "sb.bnk" true (Some ["2.wem"; "999"]) None None.

Definition update_args : Args :=
  mkArgs "sb.bnk" false None (Some ["7.wem"; "8.wem"]) None.

Definition short_payload_file : list byte :=
  words [0x44484B42; 8; 1; 7; MAGIC_DIDX; 12; 5; 0; 3; MAGIC_AUDIO; 3] ++ [x01; x02].

(** * Properties *)

(** ** Bytes and words *)

Lemma byte_val_range (b : byte) : 0 <= byte_val b < 256.
Proof.
  unfold byte_val. pose proof (Byte.to_N_bounded b). lia.
Qed.

Lemma byte_of_val (b : byte) : byte_of (byte_val b) = b.
Proof.
  unfold byte_of. pose proof (byte_val_range b) as R.
  rewrite Z.mod_small by lia. unfold byte_val.
  now rewrite N2Z.id, Byte.of_to_N.
Qed.

Lemma byte_val_of (z : Z) : 0 <= z < 256 -> byte_val (byte_of z) = z.
Proof.
  intros R. unfold byte_of. rewrite Z.mod_small by lia.
  destruct (Byte.of_N (Z.to_N z)) as [b|] eqn:E.
  - apply Byte.to_of_N in E. unfold byte_val. rewrite E. lia.
  - apply Byte.of_N_None_iff in E. lia.
Qed.

Lemma byte_of_mod (z : Z) : byte_of (z mod 256) = byte_of z.
Proof. unfold byte_of. now rewrite Z.mod_mod by lia. Qed.

Lemma le_u32_range (a b c d : byte) : 0 <= le_u32 a b c d < 2 ^ 32.
Proof.
  unfold le_u32.
  pose proof (byte_val_range a). pose proof (byte_val_range b).
  pose proof (byte_val_range c). pose proof (byte_val_range d). lia.
Qed.

Lemma is_u32_le_u32 (a b c d : byte) : is_u32 (le_u32 a b c d) = true.
Proof.
  pose proof (le_u32_range a b c d). unfold is_u32.
  apply andb_true_intro; split; [apply Z.leb_le | apply Z.ltb_lt]; lia.
Qed.

Lemma is_u32_spec (x : Z) : is_u32 x = true <-> 0 <= x < 2 ^ 32.
Proof.
  unfold is_u32. rewrite andb_true_iff, Z.leb_le, Z.ltb_lt. tauto.
Qed.

Lemma le_bytes_le_u32 (a b c d : byte) : le_bytes (le_u32 a b c d) = [a; b; c; d].
Proof.
  unfold le_bytes, le_u32.
  pose proof (byte_val_range a). pose proof (byte_val_range b).
  pose proof (byte_val_range c). pose proof (byte_val_range d).
  change (2 ^ 8) with 256. change (2 ^ 16) with 65536. change (2 ^ 24) with 16777216.
  set (x := byte_val a + 256 * byte_val b + 65536 * byte_val c + 16777216 * byte_val d).
  assert (E0 : x mod 256 = byte_val a) by (subst x; Z.to_euclidean_division_equations; lia).
  assert (E1 : (x / 256) mod 256 = byte_val b) by (subst x; Z.to_euclidean_division_equations; lia).
  assert (E2 : (x / 65536) mod 256 = byte_val c) by (subst x; Z.to_euclidean_division_equations; lia).
  assert (E3 : (x / 16777216) mod 256 = byte_val d) by (subst x; Z.to_euclidean_division_equations; lia).
  rewrite <- (byte_of_mod x), <- (byte_of_mod (x / 256)),
    <- (byte_of_mod (x / 65536)), <- (byte_of_mod (x / 16777216)).
  rewrite E0, E1, E2, E3. now rewrite !byte_of_val.
Qed.

Lemma le_u32_le_bytes (x : Z) :
  0 <= x < 2 ^ 32 -> unpack_I (le_bytes x) = Ok x.
Proof.
  intros R. unfold le_bytes, unpack_I, le_u32. f_equal.
  rewrite <- (byte_of_mod x), <- (byte_of_mod (x / 2 ^ 8)),
    <- (byte_of_mod (x / 2 ^ 16)), <- (byte_of_mod (x / 2 ^ 24)).
  rewrite !byte_val_of by (apply Z.mod_pos_bound; lia).
  change (2 ^ 8) with 256. change (2 ^ 16) with 65536. change (2 ^ 24) with 16777216.
  change (2 ^ 32) with 4294967296 in R.
  Z.to_euclidean_division_equations. lia.
Qed.

Lemma length_le_bytes (x : Z) : List.length (le_bytes x) = 4%nat.
Proof. reflexivity. Qed.

(** ** [int(str(n)) == n] *)

Lemma char_code_chr (z : Z) : 0 <= z < 256 -> char_code (chr z) = z.
Proof.
  intros R. unfold char_code, chr.
  rewrite N_ascii_embedding by lia. lia.
Qed.

Lemma digit_val_char (d : Z) : 0 <= d < 10 -> digit_val (digit_char d) = Some d.
Proof.
  intros R. unfold digit_val, digit_char. rewrite char_code_chr by lia.
  replace (48 <=? 48 + d) with true by (symmetry; apply Z.leb_le; lia).
  replace (48 + d <=? 57) with true by (symmetry; apply Z.leb_le; lia).
  cbn [andb]. f_equal. lia.
Qed.

Lemma digit_val_not_space (c : ascii) (d : Z) :
  digit_val c = Some d -> is_space c = false.
Proof.
  unfold digit_val, is_space.
  destruct ((48 <=? char_code c) && (char_code c <=? 57)) eqn:E; [|discriminate].
  intros _. apply andb_true_iff in E. destruct E as [E1 E2].
  apply Z.leb_le in E1. apply Z.leb_le in E2.
  repeat match goal with
         | |- context [?a <=? ?b] => destruct (Z.leb_spec a b); try lia
         | |- context [?a =? ?b] => destruct (Z.eqb_spec a b); try lia
         end; reflexivity.
Qed.

Lemma parse_int_digit (c : ascii) (r : string) (d : Z) :
  digit_val c = Some d ->
  parse_int (String c r) = parse_digits 0 false (String c r).
Proof.
  destruct c as [[] [] [] [] [] [] [] []]; try reflexivity;
    vm_compute; discriminate.
Qed.

Lemma int_space_is_space (c : ascii) :
  is_int_space c = true -> is_space c = true.
Proof.
  unfold is_int_space, is_space.
  repeat match goal with
         | |- context [?a <=? ?b] => destruct (Z.leb_spec a b); try lia
         | |- context [?a =? ?b] => destruct (Z.eqb_spec a b); try lia
         end; cbn; congruence.
Qed.

Lemma not_space_not_int_space (c : ascii) :
  is_space c = false -> is_int_space c = false.
Proof.
  intros H. destruct (is_int_space c) eqn:E; [|reflexivity].
  apply int_space_is_space in E. congruence.
Qed.

Lemma rstrip_no_space (s : string) : no_space s = true -> rstrip s = s.
Proof.
  induction s as [|c r IH]; simpl; [reflexivity|].
  intros H. apply andb_true_iff in H. destruct H as [Hc Hr].
  rewrite (IH Hr). apply negb_true_iff in Hc.
  rewrite (not_space_not_int_space _ Hc).
  now destruct r.
Qed.

Lemma lstrip_no_space (s : string) : no_space s = true -> lstrip s = s.
Proof.
  destruct s as [|c s]; [reflexivity|]. cbn [no_space lstrip].
  intros H. apply andb_true_iff in H. destruct H as [H _].
  apply negb_true_iff in H. now rewrite (not_space_not_int_space _ H).
Qed.

Lemma mod10_range (n : Z) : 0 <= n mod 10 < 10.
Proof. apply Z.mod_pos_bound. lia. Qed.

Lemma str_digits_no_space (fuel : nat) :
  forall n acc, no_space acc = true -> no_space (str_digits fuel n acc) = true.
Proof.
  assert (step : forall n acc, no_space acc = true ->
                   no_space (String (digit_char (n mod 10)) acc) = true).
  { intros n acc H. simpl. rewrite H.
    now rewrite (digit_val_not_space _ (digit_val_char (mod10_range n))). }
  induction fuel as [|fuel IH]; intros n acc H; simpl.
  - now apply (step n).
  - destruct (n <? 10); [now apply (step n) | apply IH, (step n), H].
Qed.

Lemma str_digits_head (fuel : nat) :
  forall n acc, exists d r,
    0 <= d < 10 /\ str_digits fuel n acc = String (digit_char d) r.
Proof.
  induction fuel as [|fuel IH]; intros n acc; simpl.
  - exists (n mod 10), acc. split; [apply mod10_range | reflexivity].
  - destruct (n <? 10).
    + exists (n mod 10), acc. split; [apply mod10_range | reflexivity].
    + apply IH.
Qed.

Lemma str_digits_parse (fuel : nat) :
  forall n acc, 0 <= n < 2 ^ (Z.of_nat fuel + 1) ->
    parse_digits 0 false (str_digits fuel n acc) = parse_digits n true acc.
Proof.
  assert (step : forall n acc, 0 <= n < 10 ->
            parse_digits 0 false (String (digit_char (n mod 10)) acc)
            = parse_digits n true acc).
  { intros n acc R. cbn [parse_digits]. rewrite (digit_val_char (mod10_range n)).
    rewrite Z.mod_small by lia. f_equal. }
  induction fuel as [|fuel IH]; intros n acc R.
  - apply step. change (2 ^ (Z.of_nat 0 + 1)) with 2 in R. lia.
  - simpl str_digits. destruct (Z.ltb_spec n 10) as [L|L].
    + apply step. lia.
    + rewrite IH.
      * cbn [parse_digits]. rewrite (digit_val_char (mod10_range n)). f_equal.
        pose proof (Z.div_mod n 10 ltac:(lia)). lia.
      * replace (Z.of_nat (S fuel) + 1) with (Z.succ (Z.of_nat fuel + 1)) in R by lia.
        rewrite Z.pow_succ_r in R by lia.
        split; [apply Z.div_pos; lia|].
        apply Z.div_lt_upper_bound; lia.
Qed.

Lemma str_digits_count (fuel : nat) :
  forall n acc,
    count_digits (str_digits fuel n acc) <= Z.of_nat fuel + 1 + count_digits acc.
Proof.
  assert (step : forall n acc,
            count_digits (String (digit_char (n mod 10)) acc) = 1 + count_digits acc).
  { intros n acc. cbn [count_digits].
    now rewrite (digit_val_char (mod10_range n)). }
  induction fuel as [|fuel IH]; intros n acc; cbn [str_digits].
  - rewrite step. lia.
  - destruct (n <? 10).
    + rewrite step. lia.
    + specialize (IH (n / 10) (String (digit_char (n mod 10)) acc)).
      rewrite step in IH. lia.
Qed.

Lemma str_parse (n : Z) :
  0 <= n ->
  no_space (str n) = true /\ parse_int (str n) = Some n.
Proof.
  intros Hn. unfold str.
  destruct (Z.ltb_spec n 0) as [L|_]; [lia|].
  set (fuel := Z.to_nat (Z.log2 n)).
  destruct (str_digits_head fuel n "") as (d & r & Hd & E).
  split; [now apply str_digits_no_space|].
  rewrite E, (parse_int_digit _ r (digit_val_char Hd)), <- E.
  rewrite str_digits_parse; [reflexivity|].
  subst fuel. split; [lia|].
  destruct (Z.eq_dec n 0) as [->|Hz]; [reflexivity|].
  rewrite Z2Nat.id by apply Z.log2_nonneg.
  replace (Z.log2 n + 1) with (Z.succ (Z.log2 n)) by lia.
  apply Z.log2_spec. lia.
Qed.

Lemma int_str (n : Z) : 0 <= n < 2 ^ 32 -> int (str n) = Ok n.
Proof.
  intros Hn. destruct (str_parse (proj1 Hn)) as [Hns P]. unfold int.
  rewrite (lstrip_no_space _ Hns), (rstrip_no_space _ Hns), P.
  replace (count_digits (str n) <=? MAX_STR_DIGITS) with true; [reflexivity|].
  symmetry. apply Z.leb_le. unfold str.
  destruct (Z.ltb_spec n 0) as [L|_]; [lia|].
  pose proof (str_digits_count (Z.to_nat (Z.log2 n)) n "") as C.
  cbn [count_digits] in C.
  assert (Z.log2 n < 32).
  { destruct (Z.eq_dec n 0) as [->|Hz]; [reflexivity|].
    apply Z.log2_lt_pow2; lia. }
  pose proof (Z.log2_nonneg n). unfold MAX_STR_DIGITS. lia.
Qed.

Lemma str_inj (a b : Z) : 0 <= a -> 0 <= b -> str a = str b -> a = b.
Proof.
  intros Ha Hb E.
  destruct (str_parse Ha) as [_ Pa]. destruct (str_parse Hb) as [_ Pb].
  rewrite E in Pa. congruence.
Qed.

(** ** Reading what was written *)

Lemma firstn_length_app {A} (xs ys : list A) :
  firstn (List.length xs) (xs ++ ys) = xs.
Proof. induction xs as [|x xs IH]; simpl; [now destruct ys | now rewrite IH]. Qed.

Lemma skipn_length_app {A} (xs ys : list A) :
  skipn (List.length xs) (xs ++ ys) = ys.
Proof. induction xs as [|x xs IH]; simpl; auto. Qed.

Lemma read_app (n : Z) (bs r : list byte) :
  Z.to_nat n = List.length bs -> read n (bs ++ r) = Ok (bs, r).
Proof.
  intros E. unfold read. now rewrite E, firstn_length_app, skipn_length_app.
Qed.

Lemma fromfile_app (n : Z) (bs r : list byte) :
  n = Z.of_nat (List.length bs) -> fromfile n (bs ++ r) = Ok (bs, r).
Proof.
  intros ->. unfold fromfile. rewrite length_app.
  destruct (Z.ltb_spec (Z.of_nat (List.length bs + List.length r))
                       (Z.of_nat (List.length bs))) as [L|_]; [lia|].
  now rewrite Nat2Z.id, firstn_length_app, skipn_length_app.
Qed.

Lemma fromfile_length (n : Z) (s bs r : list byte) :
  0 <= n -> fromfile n s = Ok (bs, r) -> Z.of_nat (List.length bs) = n.
Proof.
  intros Hn. unfold fromfile.
  destruct (Z.ltb_spec (Z.of_nat (List.length s)) n) as [L|L]; [discriminate|].
  intros E. injection E as <- _. rewrite length_firstn. lia.
Qed.

Lemma unpack_II_app (a b : list byte) (x y : Z) :
  unpack_I a = Ok x -> unpack_I b = Ok y -> unpack_II (a ++ b) = Ok (x, y).
Proof.
  destruct a as [|a0 [|a1 [|a2 [|a3 [|]]]]]; try discriminate.
  destruct b as [|b0 [|b1 [|b2 [|b3 [|]]]]]; try discriminate.
  cbn [unpack_I unpack_II app]. congruence.
Qed.

Lemma unpack_III_app (a b c : list byte) (x y z : Z) :
  unpack_I a = Ok x -> unpack_I b = Ok y -> unpack_I c = Ok z ->
  unpack_III (a ++ b ++ c) = Ok (x, y, z).
Proof.
  destruct a as [|a0 [|a1 [|a2 [|a3 [|]]]]]; try discriminate.
  destruct b as [|b0 [|b1 [|b2 [|b3 [|]]]]]; try discriminate.
  destruct c as [|c0 [|c1 [|c2 [|c3 [|]]]]]; try discriminate.
  cbn [unpack_I unpack_III app]. congruence.
Qed.

Lemma unpack_II_le_bytes (x y : Z) :
  0 <= x < 2 ^ 32 -> 0 <= y < 2 ^ 32 ->
  unpack_II (le_bytes x ++ le_bytes y) = Ok (x, y).
Proof.
  intros Hx Hy. apply unpack_II_app; now apply le_u32_le_bytes.
Qed.

Lemma unpack_III_le_bytes (x y z : Z) :
  0 <= x < 2 ^ 32 -> 0 <= y < 2 ^ 32 -> 0 <= z < 2 ^ 32 ->
  unpack_III (le_bytes x ++ le_bytes y ++ le_bytes z) = Ok (x, y, z).
Proof.
  intros Hx Hy Hz. apply unpack_III_app; now apply le_u32_le_bytes.
Qed.

Lemma pack_I_inv (x : Z) (bs : list byte) :
  pack_I x = Ok bs -> 0 <= x < 2 ^ 32 /\ bs = le_bytes x.
Proof.
  unfold pack_I. destruct (is_u32 x) eqn:E; [|discriminate].
  intros H. injection H as <-. now apply is_u32_spec in E.
Qed.

Lemma pack_II_inv (x y : Z) (bs : list byte) :
  pack_II x y = Ok bs ->
  0 <= x < 2 ^ 32 /\ 0 <= y < 2 ^ 32 /\ bs = le_bytes x ++ le_bytes y.
Proof.
  unfold pack_II. destruct (is_u32 x) eqn:Ex, (is_u32 y) eqn:Ey; try discriminate.
  intros H. injection H as <-.
  apply is_u32_spec in Ex. apply is_u32_spec in Ey. auto.
Qed.

Lemma pack_III_inv (x y z : Z) (bs : list byte) :
  pack_III x y z = Ok bs ->
  0 <= x < 2 ^ 32 /\ 0 <= y < 2 ^ 32 /\ 0 <= z < 2 ^ 32
  /\ bs = le_bytes x ++ le_bytes y ++ le_bytes z.
Proof.
  unfold pack_III.
  destruct (is_u32 x) eqn:Ex, (is_u32 y) eqn:Ey, (is_u32 z) eqn:Ez; try discriminate.
  intros H. injection H as <-.
  apply is_u32_spec in Ex. apply is_u32_spec in Ey. apply is_u32_spec in Ez. auto.
Qed.

Lemma pack_II_ok (x y : Z) :
  0 <= x < 2 ^ 32 -> 0 <= y < 2 ^ 32 ->
  pack_II x y = Ok (le_bytes x ++ le_bytes y).
Proof.
  intros Hx Hy. unfold pack_II.
  apply is_u32_spec in Hx. apply is_u32_spec in Hy. now rewrite Hx, Hy.
Qed.

Lemma pack_III_ok (x y z : Z) :
  0 <= x < 2 ^ 32 -> 0 <= y < 2 ^ 32 -> 0 <= z < 2 ^ 32 ->
  pack_III x y z = Ok (le_bytes x ++ le_bytes y ++ le_bytes z).
Proof.
  intros Hx Hy Hz. unfold pack_III.
  apply is_u32_spec in Hx. apply is_u32_spec in Hy. apply is_u32_spec in Hz.
  now rewrite Hx, Hy, Hz.
Qed.

(** The header loop written with the calls of the source: one turn is
    [unpack('<I', file.read(4))]. *)
Lemma read_header_unfold (header1 current_pos : Z) (s : list byte) :
  read_header header1 current_pos s =
  (if current_pos <? header1 + 8
   then (bs <- read 4 ;;
         word <- lift (unpack_I bs) ;;
         more <- read_header header1 (current_pos + 4) ;;
         rret (word :: more))%reader
   else rret []) s.
Proof.
  destruct s as [|a0 [|a1 [|a2 [|a3 s']]]]; simpl;
    destruct (current_pos <? header1 + 8); reflexivity.
Qed.

Lemma read_header_words (header1 : Z) (ws : list Z) :
  forall current_pos s r,
    read_header header1 current_pos s = Ok (ws, r) ->
    s = words ws ++ r
    /\ Forall (fun w => 0 <= w < 2 ^ 32) ws
    /\ forall r', read_header header1 current_pos (words ws ++ r') = Ok (ws, r').
Proof.
  induction ws as [|w ws IH]; intros cur s r H.
  - destruct s as [|a0 [|a1 [|a2 [|a3 s']]]]; simpl in H;
      destruct (cur <? header1 + 8) eqn:C; try discriminate;
      try (injection H as <-).
    + repeat split; [constructor|]. intros r'. simpl.
      destruct r' as [|b0 [|b1 [|b2 [|b3 r']]]]; simpl; now rewrite C.
    + repeat split; [constructor|]. intros r'. simpl.
      destruct r' as [|b0 [|b1 [|b2 [|b3 r']]]]; simpl; now rewrite C.
    + repeat split; [constructor|]. intros r'. simpl.
      destruct r' as [|b0 [|b1 [|b2 [|b3 r']]]]; simpl; now rewrite C.
    + repeat split; [constructor|]. intros r'. simpl.
      destruct r' as [|b0 [|b1 [|b2 [|b3 r']]]]; simpl; now rewrite C.
    + destruct (read_header header1 (cur + 4) s') as [[ws r0]|e]; discriminate.
    + repeat split; [constructor|]. intros r'. simpl.
      destruct r' as [|b0 [|b1 [|b2 [|b3 r']]]]; simpl; now rewrite C.
  - destruct s as [|a0 [|a1 [|a2 [|a3 s']]]]; simpl in H;
      destruct (cur <? header1 + 8) eqn:C; try discriminate.
    destruct (read_header header1 (cur + 4) s') as [[ws0 r0]|e] eqn:E;
      [|discriminate].
    injection H as <- -> ->.
    destruct (IH _ _ _ E) as (-> & F & K).
    unfold words. cbn [flat_map]. rewrite le_bytes_le_u32.
    repeat split.
    + constructor; [apply le_u32_range | exact F].
    + intros r'. cbn [app read_header]. rewrite C.
      fold (words ws). now rewrite K.
Qed.

Lemma pack_words_ok (ws : list Z) :
  Forall (fun w => 0 <= w < 2 ^ 32) ws -> pack_words ws = Ok (words ws).
Proof.
  induction 1 as [|w ws Hw _ IH]; [reflexivity|].
  simpl. unfold pack_I. apply is_u32_spec in Hw. rewrite Hw. simpl.
  now rewrite IH.
Qed.

Lemma pack_words_inv (ws : list Z) :
  forall bs, pack_words ws = Ok bs ->
    bs = words ws /\ Forall (fun w => 0 <= w < 2 ^ 32) ws.
Proof.
  induction ws as [|w ws IH]; simpl; intros bs H.
  - injection H as <-. split; [reflexivity | constructor].
  - destruct (pack_I w) as [b|] eqn:E; [|discriminate]. simpl in H.
    destruct (pack_words ws) as [bs'|]; [|discriminate]. simpl in H.
    injection H as <-. apply pack_I_inv in E. destruct E as [R ->].
    destruct (IH _ eq_refl) as [-> F]. split; [reflexivity | now constructor].
Qed.

(** ** The ordered mapping *)

Section DictFacts.
Variable V : Type.
Implicit Types (d : OrderedDict.t V) (k : string) (v : V).

Lemma setitem_present k v d :
  In k (OrderedDict.keys d) ->
  OrderedDict.keys (OrderedDict.setitem k v d) = OrderedDict.keys d.
Proof.
  induction d as [|[k' v'] d IH]; simpl; [tauto|].
  intros H. destruct (String.eqb_spec k' k) as [E|N]; [reflexivity|].
  simpl. f_equal. apply IH. destruct H; [contradiction | assumption].
Qed.

Lemma setitem_absent k v d :
  ~ In k (OrderedDict.keys d) -> OrderedDict.setitem k v d = d ++ [(k, v)].
Proof.
  induction d as [|[k' v'] d IH]; simpl; [reflexivity|].
  intros H. destruct (String.eqb_spec k' k) as [E|N]; [tauto|].
  f_equal. apply IH. tauto.
Qed.

Lemma setitem_keys k v d :
  OrderedDict.keys (OrderedDict.setitem k v d) =
  if OrderedDict.contains k d then OrderedDict.keys d
  else OrderedDict.keys d ++ [k].
Proof.
  unfold OrderedDict.contains.
  induction d as [|[k' v'] d IH]; simpl; [reflexivity|].
  rewrite (String.eqb_sym k k').
  destruct (String.eqb_spec k' k) as [E|N]; simpl; [reflexivity|].
  rewrite IH. now destruct (existsb (String.eqb k) (OrderedDict.keys d)).
Qed.

Lemma contains_In k d :
  OrderedDict.contains k d = true <-> In k (OrderedDict.keys d).
Proof.
  unfold OrderedDict.contains. rewrite existsb_exists. split.
  - intros (x & Hx & E). apply String.eqb_eq in E. now subst.
  - intros H. exists k. split; [assumption | apply String.eqb_refl].
Qed.

Lemma setitem_Forall (P : string * V -> Prop) k v d :
  P (k, v) -> Forall P d -> Forall P (OrderedDict.setitem k v d).
Proof.
  intros Hk. induction 1 as [|[k' v'] d Hx Hd IH]; simpl.
  - now constructor.
  - destruct (String.eqb_spec k' k) as [->|N]; now constructor.
Qed.

Lemma setitem_NoDup k v d :
  NoDup (OrderedDict.keys d) ->
  NoDup (OrderedDict.keys (OrderedDict.setitem k v d)).
Proof.
  intros H. rewrite setitem_keys.
  destruct (OrderedDict.contains k d) eqn:C; [assumption|].
  assert (~ In k (OrderedDict.keys d)) as N
    by (rewrite <- contains_In; congruence).
  apply NoDup_app; [assumption | repeat constructor; simpl; tauto |].
  intros x Hx [<-|[]]. contradiction.
Qed.

Lemma setitem_length k v d :
  (List.length (OrderedDict.setitem k v d) <= S (List.length d))%nat.
Proof.
  induction d as [|[k' v'] d IH]; simpl; [lia|].
  destruct (String.eqb k' k); simpl; lia.
Qed.

Lemma setitem_getitem k v d :
  OrderedDict.getitem k (OrderedDict.setitem k v d) = Ok v.
Proof.
  induction d as [|[k' v'] d IH]; simpl.
  - now rewrite String.eqb_refl.
  - destruct (String.eqb_spec k' k) as [->|N]; simpl.
    + now rewrite String.eqb_refl.
    + apply String.eqb_neq in N. now rewrite N.
Qed.
End DictFacts.

(** ** What a successful parse establishes *)

Lemma unpack_II_range (bs : list byte) (x y : Z) :
  unpack_II bs = Ok (x, y) -> 0 <= x < 2 ^ 32 /\ 0 <= y < 2 ^ 32.
Proof.
  do 9 (destruct bs as [|? bs]; try discriminate).
  cbn [unpack_II]. intros H. injection H as <- <-.
  split; apply le_u32_range.
Qed.

Lemma unpack_III_range (bs : list byte) (x y z : Z) :
  unpack_III bs = Ok (x, y, z) ->
  0 <= x < 2 ^ 32 /\ 0 <= y < 2 ^ 32 /\ 0 <= z < 2 ^ 32.
Proof.
  do 13 (destruct bs as [|? bs]; try discriminate).
  cbn [unpack_III]. intros H. injection H as <- <- <-.
  repeat split; apply le_u32_range.
Qed.

Lemma unpack_IIII_inv (bs : list byte) (ws : list Z) :
  unpack_IIII bs = Ok ws ->
  exists w0 w1 w2 w3,
    ws = [w0; w1; w2; w3] /\ bs = words ws
    /\ Forall (fun w => 0 <= w < 2 ^ 32) ws.
Proof.
  do 17 (destruct bs as [|? bs]; try discriminate).
  cbn [unpack_IIII]. intros H. injection H as <-.
  do 4 eexists. split; [reflexivity|]. split.
  - unfold words. cbn [flat_map]. now rewrite !le_bytes_le_u32.
  - repeat constructor; apply le_u32_range.
Qed.

Lemma read_index_inv (n : nat) :
  forall items s items' r,
    read_index n items s = Ok (items', r) ->
    Forall (fun e => indexed e /\ blank e) items ->
    NoDup (OrderedDict.keys items) ->
    Forall (fun e => indexed e /\ blank e) items'
    /\ NoDup (OrderedDict.keys items')
    /\ (List.length items' <= List.length items + n)%nat.
Proof.
  induction n as [|n IH]; intros items s items' r H F D.
  - cbn in H. injection H as <- _. repeat split; auto. lia.
  - cbn [read_index] in H. unfold rbind, read, lift in H.
    destruct (unpack_III _) as [[[id offset] length]|] eqn:U; [|discriminate].
    apply unpack_III_range in U. destruct U as (Hid & _ & Hlen).
    apply IH in H.
    + destruct H as (F' & D' & L). repeat split; auto.
      pose proof (setitem_length (str id) (mkAudioItem length []) items). lia.
    + apply setitem_Forall; [|assumption].
      split; [split; [exists id; auto | assumption] | reflexivity].
    + now apply setitem_NoDup.
Qed.

Lemma read_audio_inv (items : OrderedDict.t AudioItem) :
  forall padding s items' r,
    read_audio items padding s = Ok (items', r) ->
    Forall (fun e => indexed e /\ blank e) items ->
    Forall (fun e => indexed e /\ loaded e) items'
    /\ OrderedDict.keys items' = OrderedDict.keys items.
Proof.
  induction items as [|[id audio] rest IH]; intros padding s items' r H F.
  - cbn in H. injection H as <- _. split; [constructor | reflexivity].
  - cbn [read_audio] in H. unfold rbind, read in H.
    destruct (fromfile _ _) as [[bytes s1]|] eqn:RF; [|discriminate].
    destruct (read_audio rest _ s1) as [[rest' s2]|] eqn:RA; [|discriminate].
    cbn in H. injection H as <- _.
    inversion F as [|? ? [Hi Hb] F']; subst.
    destruct (IH _ _ _ _ RA F') as [G K].
    split; [|unfold OrderedDict.keys in *; cbn [map fst]; now rewrite K].
    constructor; [|assumption]. split.
    + exact Hi.
    + unfold loaded, blank in *. cbn in *. rewrite Hb. cbn.
      apply (fromfile_length _ (proj1 (proj2 Hi)) RF).
Qed.

(** The steps of [parse_file], one equation per call of the source. *)
Lemma parse_file_inv (s : list byte) (bank : InstrumentBank) (r : list byte) :
  parse_file s = Ok (bank, r) ->
  exists head more s1 didx_len items0 s2 audio_len items trailing,
    unpack_IIII (firstn 16 s) = Ok head
    /\ read_header (nth 1 head 0) 16 (skipn 16 s) = Ok (more, s1)
    /\ unpack_II (firstn 8 s1) = Ok (MAGIC_DIDX, didx_len)
    /\ read_index (Z.to_nat (didx_len / 12)) [] (skipn 8 s1) = Ok (items0, s2)
    /\ unpack_II (firstn 8 s2) = Ok (MAGIC_AUDIO, audio_len)
    /\ read_audio items0 0 (skipn 8 s2) = Ok (items, trailing)
    /\ bank = mkBank (head ++ more) items trailing false
    /\ r = [].
Proof.
  unfold parse_file, rbind, read, lift, raise, read_all, rret.
  change (Z.to_nat 16) with 16%nat. change (Z.to_nat 8) with 8%nat.
  intros H.
  destruct (unpack_IIII _) as [head|] eqn:U1; [|discriminate].
  destruct (read_header _ _ _) as [[more s1]|] eqn:RH; [|discriminate].
  destruct (unpack_II (firstn 8 s1)) as [[magic didx_len]|] eqn:U2; [|discriminate].
  destruct (Z.eqb_spec magic MAGIC_DIDX) as [->|]; [|discriminate].
  cbn [negb] in H.
  destruct (read_index _ _ _) as [[items0 s2]|] eqn:RI; [|discriminate].
  destruct (unpack_II (firstn 8 s2)) as [[magic audio_len]|] eqn:U3; [|discriminate].
  destruct (Z.eqb_spec magic MAGIC_AUDIO) as [->|]; [|discriminate].
  cbn [negb] in H.
  destruct (read_audio _ _ _) as [[items trailing]|] eqn:RA; [|discriminate].
  injection H as <- <-.
  now exists head, more, s1, didx_len, items0, s2, audio_len, items, trailing.
Qed.

Lemma parse_parsed (s : list byte) (bank : InstrumentBank) :
  _parse s = Ok bank -> parsed bank.
Proof.
  unfold _parse. destruct (parse_file s) as [[b r]|] eqn:P; [|discriminate].
  intros H. injection H as ->.
  apply parse_file_inv in P.
  destruct P as (head & more & s1 & dl & items0 & s2 & al & items & tr
                 & U1 & RH & U2 & RI & U3 & RA & -> & _).
  apply unpack_IIII_inv in U1. destruct U1 as (w0 & w1 & w2 & w3 & -> & _ & Fh).
  cbn [nth] in RH. apply read_header_words in RH. destruct RH as (_ & Fm & K).
  apply unpack_II_range in U2. destruct U2 as [_ Hdl].
  apply read_index_inv in RI; [|constructor|constructor].
  destruct RI as (F0 & D0 & L0).
  apply read_audio_inv in RA; [|assumption]. destruct RA as [F K'].
  constructor; cbn [header audio_items dirty].
  - exists w0, w1, w2, w3, more. repeat split; auto.
    apply Forall_app. split; assumption.
  - assumption.
  - now rewrite K'.
  - assert (List.length items = List.length items0) as ->.
    { unfold OrderedDict.keys in K'.
      now rewrite <- (length_map fst items), K', length_map. }
    cbn in L0.
    assert (Z.of_nat (Z.to_nat (dl / 12)) * 12 <= dl).
    { rewrite Z2Nat.id by (apply Z.div_pos; lia).
      pose proof (Z.mul_div_le dl 12 ltac:(lia)). lia. }
    lia.
  - reflexivity.
Qed.

(** ** Parsing the output of [to_file] *)

Lemma parse_file_intro (s : list byte) head more s1 didx_len items0 s2
    audio_len items trailing :
  unpack_IIII (firstn 16 s) = Ok head ->
  read_header (nth 1 head 0) 16 (skipn 16 s) = Ok (more, s1) ->
  unpack_II (firstn 8 s1) = Ok (MAGIC_DIDX, didx_len) ->
  read_index (Z.to_nat (didx_len / 12)) [] (skipn 8 s1) = Ok (items0, s2) ->
  unpack_II (firstn 8 s2) = Ok (MAGIC_AUDIO, audio_len) ->
  read_audio items0 0 (skipn 8 s2) = Ok (items, trailing) ->
  parse_file s = Ok (mkBank (head ++ more) items trailing false, []).
Proof.
  intros U1 RH U2 RI U3 RA.
  unfold parse_file, rbind, read, lift, raise, read_all, rret.
  change (Z.to_nat 16) with 16%nat. change (Z.to_nat 8) with 8%nat.
  rewrite U1, RH, U2, Z.eqb_refl. cbn [negb].
  rewrite RI, U3, Z.eqb_refl. cbn [negb].
  now rewrite RA.
Qed.

Lemma write_index_read (items : OrderedDict.t AudioItem) :
  forall offset padding index last acc r,
    write_index items offset padding = Ok (index, last) ->
    Forall indexed items ->
    NoDup (OrderedDict.keys acc ++ OrderedDict.keys items) ->
    read_index (List.length items) acc (index ++ r)
    = Ok (acc ++ map erase items, r).
Proof.
  induction items as [|[k audio] rest IH];
    intros offset padding index last acc r W F D.
  - cbn in W. injection W as <- _. cbn. now rewrite app_nil_r.
  - inversion F as [|? ? [(id & Hid & Hk) Hlen] F']; subst. cbn in Hk, Hlen. subst k.
    cbn [write_index] in W. rewrite (int_str Hid) in W. cbn [bind] in W.
    destruct (pack_III _ _ _) as [entry|] eqn:PK; [|discriminate]. cbn [bind] in W.
    destruct (write_index rest _ _) as [[out last']|] eqn:WR; [|discriminate].
    cbn in W. injection W as <- <-.
    apply pack_III_inv in PK. destruct PK as (_ & Hoff & _ & ->).
    cbn [List.length read_index]. unfold rbind, lift.
    rewrite <- app_assoc, read_app by reflexivity.
    rewrite (unpack_III_le_bytes Hid Hoff Hlen).
    rewrite setitem_absent.
    + rewrite (IH _ _ _ _ _ r WR F').
      * now rewrite <- app_assoc.
      * unfold OrderedDict.keys in *. rewrite map_app, <- app_assoc. exact D.
    + intros Hin. unfold OrderedDict.keys in D. cbn [map fst] in D.
      apply NoDup_remove_2 in D. apply D, in_or_app. now left.
Qed.

Lemma padding_of_range (n : Z) : 0 <= padding_of n < 16.
Proof. apply Z.mod_pos_bound. lia. Qed.

Lemma write_audio_read (items : OrderedDict.t AudioItem) :
  forall padding r,
    0 <= padding ->
    Forall loaded items ->
    read_audio (map erase items) padding (write_audio items padding ++ r)
    = Ok (items, r).
Proof.
  induction items as [|[k audio] rest IH]; intros padding r Hp F.
  - reflexivity.
  - inversion F as [|? ? Hl F']; subst. unfold loaded in Hl. cbn in Hl.
    cbn [map erase fst snd write_audio read_audio len data]. unfold rbind.
    rewrite <- !app_assoc.
    rewrite read_app by now rewrite repeat_length.
    rewrite fromfile_app by auto.
    rewrite IH by (auto; apply padding_of_range).
    unfold rret. cbn [app]. now destruct audio.
Qed.

(** The layout of the file [to_file] writes. *)
Lemma to_file_inv (self : InstrumentBank) (out : list byte) :
  to_file self = Ok out ->
  exists index padding length,
    Forall (fun w => 0 <= w < 2 ^ 32) (header self)
    /\ 0 <= Z.of_nat (List.length (audio_items self)) * 12 < 2 ^ 32
    /\ write_index (audio_items self) 0 None = Ok (index, Some padding)
    /\ length = sum (map (fun audio => align16 (len audio))
                         (OrderedDict.values (audio_items self))) - padding
    /\ 0 <= length < 2 ^ 32
    /\ out = words (header self)
             ++ (le_bytes MAGIC_DIDX
                 ++ le_bytes (Z.of_nat (List.length (audio_items self)) * 12))
             ++ index
             ++ (le_bytes MAGIC_AUDIO ++ le_bytes length)
             ++ write_audio (audio_items self) 0
             ++ trailing_data self.
Proof.
  unfold to_file. intros H.
  destruct (pack_words _) as [hdr|] eqn:PW; [|discriminate]. cbn [bind] in H.
  destruct (pack_II MAGIC_DIDX _) as [didx|] eqn:PD; [|discriminate]. cbn [bind] in H.
  destruct (write_index _ _ _) as [[index [padding|]]|] eqn:WI; try discriminate.
  cbn [bind] in H.
  destruct (pack_II MAGIC_AUDIO _) as [audio_hdr|] eqn:PA; [|discriminate].
  cbn [bind] in H. injection H as <-.
  apply pack_words_inv in PW. destruct PW as [-> Fh].
  apply pack_II_inv in PD. destruct PD as (_ & Hn & ->).
  apply pack_II_inv in PA. destruct PA as (_ & Hl & ->).
  exists index, padding. eexists. repeat split; try eassumption; tauto.
Qed.

Lemma unpack_IIII_words (w0 w1 w2 w3 : Z) :
  Forall (fun w => 0 <= w < 2 ^ 32) [w0; w1; w2; w3] ->
  unpack_IIII (words [w0; w1; w2; w3]) = Ok [w0; w1; w2; w3].
Proof.
  intros F. inversion F as [|? ? H0 F0]; subst. inversion F0 as [|? ? H1 F1]; subst.
  inversion F1 as [|? ? H2 F2]; subst. inversion F2 as [|? ? H3 _]; subst.
  apply le_u32_le_bytes in H0, H1, H2, H3.
  unfold le_bytes, unpack_I in H0, H1, H2, H3.
  unfold words, le_bytes. cbn [flat_map app unpack_IIII]. congruence.
Qed.

Lemma magic_didx_u32 : 0 <= MAGIC_DIDX < 2 ^ 32.
Proof. split; [discriminate | reflexivity]. Qed.

Lemma magic_audio_u32 : 0 <= MAGIC_AUDIO < 2 ^ 32.
Proof. split; [discriminate | reflexivity]. Qed.

Lemma roundtrip_parsed (bank : InstrumentBank) (out : list byte) :
  parsed bank -> to_file bank = Ok out -> _parse out = Ok bank.
Proof.
  intros [(w0 & w1 & w2 & w3 & more & Eh & Fh & RH) Fi Dk Cn Dd] T.
  apply to_file_inv in T.
  destruct T as (index & padding & length & _ & Hn & WI & _ & Hl & ->).
  destruct bank as [h items tr d]. cbn [header audio_items trailing_data dirty] in *.
  subst h d. unfold _parse.
  unfold words at 1. rewrite flat_map_app.
  fold (words [w0; w1; w2; w3]). fold (words more). rewrite <- app_assoc.
  set (didx := le_bytes MAGIC_DIDX ++ le_bytes (Z.of_nat (List.length items) * 12)).
  set (audio_hdr := le_bytes MAGIC_AUDIO ++ le_bytes length).
  rewrite parse_file_intro
    with (head := [w0; w1; w2; w3]) (more := more)
         (s1 := didx ++ index ++ audio_hdr ++ write_audio items 0 ++ tr)
         (didx_len := Z.of_nat (List.length items) * 12)
         (items0 := [] ++ map erase items)
         (s2 := audio_hdr ++ write_audio items 0 ++ tr)
         (audio_len := length) (items := items) (trailing := tr).
  - reflexivity.
  - change 16%nat with (List.length (words [w0; w1; w2; w3])).
    rewrite firstn_length_app. apply unpack_IIII_words.
    apply Forall_app in Fh. tauto.
  - change 16%nat with (List.length (words [w0; w1; w2; w3])).
    rewrite skipn_length_app. cbn [nth]. apply RH.
  - change 8%nat with (List.length didx). rewrite firstn_length_app.
    apply unpack_II_le_bytes; [exact magic_didx_u32 | exact Hn].
  - change 8%nat with (List.length didx). rewrite skipn_length_app.
    rewrite Z.div_mul, Nat2Z.id by lia.
    apply (write_index_read _ _ [] _ WI).
    + eapply Forall_impl; [|exact Fi]. now intros e [].
    + exact Dk.
  - change 8%nat with (List.length audio_hdr). rewrite firstn_length_app.
    apply unpack_II_le_bytes; [exact magic_audio_u32 | exact Hl].
  - change 8%nat with (List.length audio_hdr). rewrite skipn_length_app.
    cbn [app]. apply write_audio_read; [lia|].
    eapply Forall_impl; [|exact Fi]. now intros e [].
Qed.

(** ** Alignment and the length of the payload chunk *)

Lemma align16_padding (n : Z) : align16 n = n + padding_of n.
Proof.
  unfold align16, padding_of.
  rewrite <- Z.ldiff_land. change 15 with (Z.ones 4) at 2.
  rewrite Z.ldiff_ones_r by lia.
  rewrite Z.shiftl_mul_pow2, Z.shiftr_div_pow2 by lia.
  change (2 ^ 4) with 16.
  Z.to_euclidean_division_equations. lia.
Qed.

(** [align16 n] is [n] rounded up to the next multiple of 16. *)
Lemma align16_round_up (n : Z) :
  (16 | align16 n) /\ n <= align16 n < n + 16.
Proof.
  rewrite align16_padding. pose proof (padding_of_range n) as R.
  split; [|lia].
  unfold padding_of in *. apply Z.mod_divide; [lia|].
  rewrite Zplus_mod_idemp_r. now replace (n + - n) with 0 by lia.
Qed.

Lemma sum_cons (x : Z) (xs : list Z) : sum (x :: xs) = x + sum xs.
Proof.
  unfold sum. cbn [fold_left].
  enough (G : forall l a, fold_left Z.add l a = a + fold_left Z.add l 0)
    by (rewrite G; lia).
  induction l as [|y l IH]; intros a; cbn [fold_left]; [lia|].
  rewrite IH, (IH (0 + y)). lia.
Qed.

Lemma last_cons_default {A} (l : list A) :
  forall x d, last (x :: l) d = last l x.
Proof.
  induction l as [|y l IH]; intros x d; [reflexivity|].
  change (last (x :: y :: l) d) with (last (y :: l) d).
  now rewrite (IH y d), (IH y x).
Qed.

Lemma last_padding_span e (items : OrderedDict.t AudioItem) :
  forall q, exists p,
    last_padding (e :: items) q = Some p
    /\ p = padding_of (len (snd (last items e)))
    /\ aligned_sum (e :: items) - p = span (e :: items).
Proof.
  revert e. induction items as [|e' rest IH]; intros [k audio] q.
  - exists (padding_of (len audio)). repeat split.
    unfold aligned_sum. cbn. unfold sum. cbn. rewrite align16_padding. lia.
  - destruct (IH e' (Some (padding_of (len audio)))) as (p & E & Ep & S).
    exists p. split; [exact E|]. split.
    + rewrite Ep. now rewrite last_cons_default.
    + unfold aligned_sum in *. cbn [OrderedDict.values map snd] in *.
      rewrite sum_cons, align16_padding.
      change (span ((k, audio) :: e' :: rest))
        with (len audio + padding_of (len audio) + span (e' :: rest)).
      unfold OrderedDict.values in S. cbn [map] in S. lia.
Qed.

Lemma write_index_last (items : OrderedDict.t AudioItem) :
  forall offset padding index last,
    write_index items offset padding = Ok (index, last) ->
    last = last_padding items padding
    /\ List.length index = (12 * List.length items)%nat.
Proof.
  induction items as [|[k audio] rest IH]; intros offset padding index last W.
  - cbn in W. injection W as <- <-. now split.
  - cbn [write_index] in W.
    destruct (int k) as [i|]; [|discriminate]. cbn [bind] in W.
    destruct (pack_III _ _ _) as [entry|] eqn:PK; [|discriminate]. cbn [bind] in W.
    destruct (write_index rest _ _) as [[out last']|] eqn:WR; [|discriminate].
    cbn in W. injection W as <- <-.
    apply pack_III_inv in PK. destruct PK as (_ & _ & _ & ->).
    destruct (IH _ _ _ _ WR) as [-> L]. split; [reflexivity|].
    rewrite length_app, L. cbn [List.length app le_bytes]. lia.
Qed.

Lemma span_nonneg (items : OrderedDict.t AudioItem) :
  Forall indexed items -> 0 <= span items.
Proof.
  induction 1 as [|[k audio] rest [_ Hl] F IH]; cbn [span]; [lia|].
  cbn in Hl. pose proof (padding_of_range (len audio)). destruct rest; lia.
Qed.

Lemma write_index_ok (items : OrderedDict.t AudioItem) :
  forall offset padding,
    Forall indexed items ->
    0 <= offset -> offset + span items < 2 ^ 32 ->
    exists index, write_index items offset padding
                  = Ok (index, last_padding items padding).
Proof.
  induction items as [|[k audio] rest IH]; intros offset padding F Ho Hs.
  - now exists [].
  - inversion F as [|? ? [(id & Hid & Hk) Hlen] F']; subst. cbn in Hk, Hlen. subst k.
    pose proof (span_nonneg F') as Hr.
    pose proof (padding_of_range (len audio)) as Hp.
    cbn [write_index last_padding]. rewrite (int_str Hid). cbn [bind].
    rewrite pack_III_ok; [cbn [bind] | assumption | | assumption].
    + destruct rest as [|e rest].
      * cbn. now eexists.
      * destruct (IH (offset + (len audio + padding_of (len audio)))
                     (Some (padding_of (len audio))) F') as [out E].
        -- lia.
        -- change (span ((str id, audio) :: e :: rest))
             with (len audio + padding_of (len audio) + span (e :: rest)) in Hs.
           lia.
        -- rewrite E. cbn. now eexists.
    + cbn [span] in Hs. destruct rest; lia.
Qed.

Lemma write_audio_length (items : OrderedDict.t AudioItem) :
  forall padding,
    0 <= padding -> Forall loaded items -> items <> [] ->
    Z.of_nat (List.length (write_audio items padding)) = padding + span items.
Proof.
  induction items as [|[k audio] rest IH]; intros padding Hp F N; [congruence|].
  inversion F as [|? ? Hl F']; subst. unfold loaded in Hl. cbn in Hl.
  cbn [write_audio]. rewrite !length_app, repeat_length, !Nat2Z.inj_add.
  rewrite Z2Nat.id, Hl by lia.
  destruct rest as [|e rest].
  - cbn. lia.
  - rewrite IH; [|apply padding_of_range | assumption | discriminate].
    change (span ((k, audio) :: e :: rest))
      with (len audio + padding_of (len audio) + span (e :: rest)).
    lia.
Qed.

(** [to_file] returns for every parsed bank that has an item and whose
    payload chunk stays below 4 GiB. *)
Lemma to_file_ok (bank : InstrumentBank) :
  parsed bank -> audio_items bank <> [] -> span (audio_items bank) < 2 ^ 32 ->
  exists out, to_file bank = Ok out.
Proof.
  intros [(w0 & w1 & w2 & w3 & more & Eh & Fh & RH) Fi Dk Cn Dd] N S.
  assert (F : Forall indexed (audio_items bank))
    by (eapply Forall_impl; [|exact Fi]; now intros e []).
  unfold to_file. rewrite (pack_words_ok Fh). cbn [bind].
  rewrite pack_II_ok; [cbn [bind] | exact magic_didx_u32 | lia].
  destruct (write_index_ok None F (Z.le_refl 0)) as [index W]; [lia|].
  rewrite W. cbn [bind].
  destruct (audio_items bank) as [|e items] eqn:E; [congruence|].
  destruct (last_padding_span e items None) as (p & -> & _ & Hs). cbn [bind].
  fold (aligned_sum (e :: items)). rewrite Hs.
  rewrite pack_II_ok; [cbn [bind] | exact magic_audio_u32 |].
  - eexists. reflexivity.
  - pose proof (span_nonneg F). lia.
Qed.

Lemma parse_file_chunks (s : list byte) :
  parse_file s =
  (bs <- read 16 ;;
   header <- lift (unpack_IIII bs) ;;
   more <- read_header (nth 1 header 0) 16 ;;
   parse_index_chunk (header ++ more))%reader s.
Proof. reflexivity. Qed.

Lemma parse_file_after_header (s : list byte) head more s1 :
  unpack_IIII (firstn 16 s) = Ok head ->
  read_header (nth 1 head 0) 16 (skipn 16 s) = Ok (more, s1) ->
  parse_file s = parse_index_chunk (head ++ more) s1.
Proof.
  intros U RH. rewrite parse_file_chunks. unfold rbind at 1 2 3, read, lift.
  change (Z.to_nat 16) with 16%nat. now rewrite U, RH.
Qed.

Lemma parse_index_chunk_descriptor (header : list Z) (magic length : Z)
    (rest : list byte) :
  0 <= magic < 2 ^ 32 -> 0 <= length < 2 ^ 32 ->
  parse_index_chunk header (le_bytes magic ++ le_bytes length ++ rest) =
  if negb (magic =? MAGIC_DIDX)
  then Raise (ValueError (magic_message MAGIC_DIDX magic))
  else (items <- read_index (Z.to_nat (length / 12)) [] ;;
        parse_audio_chunk header items)%reader rest.
Proof.
  intros Hm Hl. unfold parse_index_chunk. unfold rbind at 1 2, lift.
  rewrite app_assoc, read_app by reflexivity.
  rewrite (unpack_II_le_bytes Hm Hl).
  now destruct (magic =? MAGIC_DIDX).
Qed.

Lemma unpack_II_inv (bs : list byte) (x y : Z) :
  unpack_II bs = Ok (x, y) -> bs = le_bytes x ++ le_bytes y.
Proof.
  do 9 (destruct bs as [|? bs]; try discriminate).
  cbn [unpack_II]. intros H. injection H as <- <-.
  now rewrite !le_bytes_le_u32.
Qed.

Example parse_three_item_file : _parse three_item_file = Ok three_item_bank.
Proof. vm_compute. reflexivity. Qed.

Example to_file_three_item_bank : to_file three_item_bank = Ok three_item_file.
Proof. vm_compute. reflexivity. Qed.

Example parse_empty_bank_file : _parse empty_bank_file = Ok empty_bank.
Proof. vm_compute. reflexivity. Qed.

Example str_u32_max : str 4294967295 = "4294967295".
Proof. vm_compute. reflexivity. Qed.

Example str_zero : str 0 = "0".
Proof. vm_compute. reflexivity. Qed.

Example int_decimal : int "1024" = Ok 1024.
Proof. vm_compute. reflexivity. Qed.

Example int_leading_zeros : int "007" = Ok 7.
Proof. vm_compute. reflexivity. Qed.

Example int_spaces_sign_underscore : int " +1_000 " = Ok 1000.
Proof. vm_compute. reflexivity. Qed.

Example int_negative : int "-5" = Ok (-5).
Proof. vm_compute. reflexivity. Qed.

Example int_word : int "intro" = Raise (ValueError_int "intro").
Proof. vm_compute. reflexivity. Qed.

Example int_double_underscore : int "1__0" = Raise (ValueError_int "1__0").
Proof. vm_compute. reflexivity. Qed.

Example format_08X_didx : format_08X MAGIC_DIDX = "58444944".
Proof. vm_compute. reflexivity. Qed.

Example format_08X_small : format_08X 255 = "000000FF".
Proof. vm_compute. reflexivity. Qed.

Example posix_splitext_wem : posix_splitext "sfx/123.wem" = ("sfx/123", ".wem").
Proof. vm_compute. reflexivity. Qed.

Example posix_splitext_plain : posix_splitext "999" = ("999", "").
Proof. vm_compute. reflexivity. Qed.

Example posix_splitext_hidden : posix_splitext ".profile" = (".profile", "").
Proof. vm_compute. reflexivity. Qed.

(** * The claims *)





(** ** Mutations *)

Section MutationFacts.
Variable splitext : string -> string * string.

Lemma empty_one (name : string) (self : InstrumentBank) :
  empty splitext [name] self
  = (set_item (fst (splitext name)) (mkAudioItem 0 []) self, None).
Proof. cbn [empty]. now destruct (splitext name). Qed.

Lemma update_one fs (file : string) (bytes : list byte) (self : InstrumentBank) :
  fs file = Some bytes ->
  update splitext fs [file] self
  = (set_item (fst (splitext file))
              (mkAudioItem (Z.of_nat (List.length bytes)) bytes) self, None).
Proof. intros E. cbn [update]. destruct (splitext file). now rewrite E. Qed.

Lemma empty_no_exception (to_remove : list string) :
  forall self, snd (empty splitext to_remove self) = None.
Proof.
  induction to_remove as [|name rest IH]; intros self; cbn [empty].
  - reflexivity.
  - destruct (splitext name). apply IH.
Qed.

Lemma set_item_loaded id audio (self : InstrumentBank) :
  Z.of_nat (List.length (data audio)) = len audio ->
  Forall loaded (audio_items self) ->
  Forall loaded (audio_items (set_item id audio self)).
Proof. intros H F. cbn. now apply setitem_Forall. Qed.

Lemma empty_loaded (to_remove : list string) :
  forall self, Forall loaded (audio_items self) ->
               Forall loaded (audio_items (fst (empty splitext to_remove self))).
Proof.
  induction to_remove as [|name rest IH]; intros self F; cbn [empty].
  - exact F.
  - destruct (splitext name) as [id ext]. apply IH.
    now apply set_item_loaded.
Qed.

Lemma update_loaded fs (to_update : list string) :
  forall self, Forall loaded (audio_items self) ->
               Forall loaded (audio_items (fst (update splitext fs to_update self))).
Proof.
  induction to_update as [|file rest IH]; intros self F; cbn [update].
  - exact F.
  - destruct (splitext file) as [id ext]. destruct (fs file) as [bytes|].
    + apply IH. now apply set_item_loaded.
    + exact F.
Qed.
End MutationFacts.

(** C3, as the source has it.  [empty] never raises: an id that is in the
    mapping keeps its place and gets a zero-length item, an id that is
    not in the mapping is appended with a zero-length item, and [dirty]
    is set in both cases. *)
Theorem empty_replaces_or_appends (splitext : string -> string * string)
    (name : string) (self : InstrumentBank) :
  let id := fst (splitext name) in
  let self' := fst (empty splitext [name] self) in
  snd (empty splitext [name] self) = None
  /\ dirty self' = true
  /\ OrderedDict.getitem id (audio_items self') = Ok (mkAudioItem 0 [])
  /\ OrderedDict.keys (audio_items self')
     = (if OrderedDict.contains id (audio_items self)
        then OrderedDict.keys (audio_items self)
        else OrderedDict.keys (audio_items self) ++ [id]).
Proof.
  cbv zeta. rewrite empty_one. cbn [fst snd set_item dirty audio_items].
  repeat split.
  - apply setitem_getitem.
  - apply setitem_keys.
Qed.

(** C3 as stated fails: emptying the id 999, which the bank does not
    hold, raises nothing and adds 999 to the mapping. *)
Lemma empty_unknown_id_counterexample :
  OrderedDict.contains "999" (audio_items three_item_bank) = false
  /\ empty posix_splitext ["999"] three_item_bank
     = (mkBank (header three_item_bank)
               (three_items ++ [("999", mkAudioItem 0 [])])
               (trailing_data three_item_bank) true,
        None).
Proof. split; vm_compute; reflexivity. Qed.

(** C7 (order preservation).  [update] of an id that is in the mapping
    leaves the order of the ids as it was; [update] of an id that is not
    appends it as the last entry; both store the new item and set
    [dirty]. *)
Theorem update_preserves_order (splitext : string -> string * string)
    (fs : string -> option (list byte)) (file : string) (bytes : list byte)
    (self : InstrumentBank) :
  fs file = Some bytes ->
  let id := fst (splitext file) in
  let audio := mkAudioItem (Z.of_nat (List.length bytes)) bytes in
  let self' := fst (update splitext fs [file] self) in
  snd (update splitext fs [file] self) = None
  /\ dirty self' = true
  /\ OrderedDict.getitem id (audio_items self') = Ok audio
  /\ (In id (OrderedDict.keys (audio_items self)) ->
      OrderedDict.keys (audio_items self') = OrderedDict.keys (audio_items self))
  /\ (~ In id (OrderedDict.keys (audio_items self)) ->
      audio_items self' = audio_items self ++ [(id, audio)]).
Proof.
  intros E. cbv zeta. rewrite (update_one splitext fs file self E).
  cbn [fst snd set_item dirty audio_items]. repeat split.
  - apply setitem_getitem.
  - apply setitem_present.
  - apply setitem_absent.
Qed.

Lemma update_preserves_order_witness :
  one_file "2.wem" [x0a; x0b] "2.wem" = Some [x0a; x0b]
  /\ OrderedDict.keys
       (audio_items
          (fst (update posix_splitext (one_file "2.wem" [x0a; x0b]) ["2.wem"]
                       three_item_bank)))
     = ["1"; "2"; "3"].
Proof.
  split; [reflexivity|].
  apply (update_preserves_order posix_splitext (one_file "2.wem" [x0a; x0b])
           "2.wem" three_item_bank (bytes := [x0a; x0b]) eq_refl).
  vm_compute. tauto.
Defined.

(** C9 (invariant).  In every bank reached by a parse followed by any
    [update] and [empty] calls, each item's [data] has exactly [len]
    bytes; and the item an [empty] call leaves has length 0 and no
    data. *)
Theorem data_length_invariant (bank : InstrumentBank) :
  reachable bank ->
  Forall loaded (audio_items bank)
  /\ forall splitext name,
       OrderedDict.getitem (fst (splitext name))
         (audio_items (fst (empty splitext [name] bank)))
       = Ok (mkAudioItem 0 []).
Proof.
  intros R. split.
  - induction R as [file bank P | splitext fs files bank R IH
                    | splitext names bank R IH].
    + apply parse_parsed in P. destruct P as [_ Fi _ _ _].
      eapply Forall_impl; [|exact Fi]. now intros e [].
    + now apply update_loaded.
    + now apply empty_loaded.
  - intros splitext name. rewrite empty_one. cbn [fst set_item audio_items].
    apply setitem_getitem.
Qed.

Lemma data_length_invariant_witness :
  Forall loaded
    (audio_items
       (fst (empty posix_splitext ["1.wem"]
               (fst (update posix_splitext (one_file "7.wem" [x0a; x0b])
                            ["7.wem"] three_item_bank))))).
Proof.
  apply data_length_invariant.
  apply reachable_empty, reachable_update.
  apply (reachable_parse three_item_file). vm_compute. reflexivity.
Defined.

(** ** Chunk magic and chunk length of the index *)

(** C5 (index magic).  Whenever the index-chunk descriptor of the file
    holds a magic word other than 0x58444944, the parse ends there with
    the [ValueError] whose message gives the expected 58444944 and the
    word that was read, both as 8 hexadecimal digits; a magic word of 0
    is reported as 00000000. *)
Theorem didx_magic_mismatch (file : list byte) head more s1 magic chunk_length :
  unpack_IIII (firstn 16 file) = Ok head ->
  read_header (nth 1 head 0) 16 (skipn 16 file) = Ok (more, s1) ->
  unpack_II (firstn 8 s1) = Ok (magic, chunk_length) ->
  magic <> MAGIC_DIDX ->
  _parse file
  = Raise (ValueError ("AUDIO magic number expected (58444944), got "
                       ++ format_08X magic ++ " instead")%string)
  /\ (magic = 0 ->
      _parse file
      = Raise (ValueError
                 "AUDIO magic number expected (58444944), got 00000000 instead")).
Proof.
  intros U RH UD N.
  assert (E : _parse file = Raise (ValueError (magic_message MAGIC_DIDX magic))).
  { unfold _parse. rewrite (parse_file_after_header file U RH).
    unfold parse_index_chunk, rbind, read, lift, raise.
    change (Z.to_nat 8) with 8%nat. rewrite UD.
    destruct (Z.eqb_spec magic MAGIC_DIDX); [contradiction | reflexivity]. }
  split.
  - exact E.
  - intros ->. exact E.
Qed.

Lemma didx_magic_mismatch_witness :
  _parse zero_magic_file
  = Raise (ValueError
             "AUDIO magic number expected (58444944), got 00000000 instead").
Proof.
  apply (didx_magic_mismatch zero_magic_file
           (head := [0x44484B42; 8; 1; 7]) (more := [])
           (s1 := words [0; 12; 1; 0; 0; MAGIC_AUDIO; 0])
           (magic := 0) (chunk_length := 12));
    vm_compute; (reflexivity || discriminate).
Defined.

(** C4, as the source has it.  The parser does not inspect the remainder
    of the index chunk length by 12: the item count is the quotient, and
    a file parses exactly as the file that declares any other length with
    the same quotient, a multiple of 12 or not. *)
Theorem didx_length_remainder_ignored (file : list byte) head more s1
    chunk_length chunk_length' :
  unpack_IIII (firstn 16 file) = Ok head ->
  read_header (nth 1 head 0) 16 (skipn 16 file) = Ok (more, s1) ->
  unpack_II (firstn 8 s1) = Ok (MAGIC_DIDX, chunk_length) ->
  0 <= chunk_length' < 2 ^ 32 ->
  chunk_length' / 12 = chunk_length / 12 ->
  _parse (words (head ++ more)
          ++ le_bytes MAGIC_DIDX ++ le_bytes chunk_length' ++ skipn 8 s1)
  = _parse file.
Proof.
  intros U RH UD R Q.
  pose proof (unpack_II_range _ UD) as [_ RL].
  pose proof (unpack_II_inv _ UD) as E8.
  pose proof (unpack_IIII_inv _ U) as (w0 & w1 & w2 & w3 & -> & _ & Fh).
  cbn [nth] in RH. destruct (read_header_words _ _ _ RH) as (_ & _ & K).
  unfold _parse.
  rewrite (parse_file_after_header file U RH).
  rewrite <- (firstn_skipn 8 s1) at 2. rewrite E8, <- app_assoc.
  rewrite (parse_index_chunk_descriptor _ _ magic_didx_u32 RL).
  rewrite parse_file_after_header
    with (head := [w0; w1; w2; w3]) (more := more)
         (s1 := le_bytes MAGIC_DIDX ++ le_bytes chunk_length' ++ skipn 8 s1).
  - rewrite (parse_index_chunk_descriptor _ _ magic_didx_u32 R).
    now rewrite Q.
  - unfold words. rewrite flat_map_app, <- app_assoc.
    change 16%nat with (List.length (flat_map le_bytes [w0; w1; w2; w3])).
    rewrite firstn_length_app. now apply unpack_IIII_words.
  - unfold words. rewrite flat_map_app, <- app_assoc.
    change 16%nat with (List.length (flat_map le_bytes [w0; w1; w2; w3])).
    rewrite skipn_length_app. cbn [nth]. apply K.
Qed.

Lemma didx_length_remainder_ignored_witness :
  _parse (words [0x44484B42; 8; 1; 7; MAGIC_DIDX; 12; 5; 0; 0; MAGIC_AUDIO; 0])
  = _parse odd_index_file.
Proof.
  apply (didx_length_remainder_ignored odd_index_file
           (head := [0x44484B42; 8; 1; 7]) (more := [])
           (s1 := words [MAGIC_DIDX; 13; 5; 0; 0; MAGIC_AUDIO; 0])
           (chunk_length := 13) (chunk_length' := 12));
    vm_compute; (reflexivity || (split; [discriminate | reflexivity])).
Defined.

(** C4 as stated fails: a file whose index chunk declares 13 bytes is
    parsed, with one item. *)
Lemma odd_didx_length_counterexample :
  unpack_II (firstn 8 (skipn 16 odd_index_file)) = Ok (MAGIC_DIDX, 13)
  /\ 13 mod 12 <> 0
  /\ _parse odd_index_file
     = Ok (mkBank [0x44484B42; 8; 1; 7] [("5", mkAudioItem 0 [])] [] false).
Proof. repeat split; vm_compute; (reflexivity || discriminate). Qed.

(** ** The file [to_file] writes *)

Lemma align16_round_up16 (n : Z) : align16 n = round_up16 n.
Proof.
  rewrite align16_padding. unfold padding_of, round_up16.
  Z.to_euclidean_division_equations. lia.
Qed.

Lemma last_map {A B} (f : A -> B) (l : list A) :
  forall x d, last (map f (x :: l)) d = f (last l x).
Proof.
  induction l as [|y l IH]; intros x d; [reflexivity|].
  change (last (map f (x :: y :: l)) d) with (last (map f (y :: l)) d).
  now rewrite IH, last_cons_default.
Qed.



(** C10 (empty mapping).  [to_file] does not return for a bank without
    items: once the header words are written, the length of the payload
    chunk reads the local [padding], which only a turn of the index loop
    binds. *)
Theorem to_file_empty_mapping (self : InstrumentBank) :
  audio_items self = [] ->
  exists e,
    to_file self = Raise e
    /\ (Forall (fun w => 0 <= w < 2 ^ 32) (header self) ->
        e = UnboundLocalError "padding").
Proof.
  intros E. unfold to_file. rewrite E.
  destruct (pack_words (header self)) as [hdr|e] eqn:PW; cbn.
  - eexists. split; [reflexivity | reflexivity].
  - exists e. split; [reflexivity|]. intros F.
    rewrite (pack_words_ok F) in PW. discriminate.
Qed.

Lemma to_file_empty_mapping_witness :
  to_file empty_bank = Raise (UnboundLocalError "padding").
Proof.
  destruct (to_file_empty_mapping empty_bank eq_refl) as (e & -> & H).
  rewrite H; [reflexivity|].
  repeat constructor; discriminate.
Defined.

(** ** Item ids in the index table *)

Lemma int_raise (k : string) (e : exn) : int k = Raise e -> e = ValueError_int k.
Proof.
  unfold int. destruct (parse_int _); [|congruence].
  destruct (_ <=? _); [discriminate | congruence].
Qed.

Lemma pack_III_raise (x y z : Z) (e : exn) :
  pack_III x y z = Raise e -> e = StructError.
Proof.
  unfold pack_III. destruct (_ && _); [discriminate | congruence].
Qed.

Lemma pack_II_raise (x y : Z) (e : exn) : pack_II x y = Raise e -> e = StructError.
Proof.
  unfold pack_II. destruct (_ && _); [discriminate | congruence].
Qed.

Lemma pack_words_raise (ws : list Z) (e : exn) :
  pack_words ws = Raise e -> e = StructError.
Proof.
  induction ws as [|w ws IH]; cbn [pack_words]; [discriminate|].
  unfold pack_I. destruct (is_u32 w); cbn [bind]; [|congruence].
  destruct (pack_words ws); cbn [bind]; [discriminate|].
  intros H. apply IH. congruence.
Qed.

Lemma write_index_bad_id (items : OrderedDict.t AudioItem) :
  forall offset padding,
    (exists e, In e items /\ ~ id_fits (fst e)) ->
    exists err,
      write_index items offset padding = Raise err
      /\ (err = StructError \/ exists literal, err = ValueError_int literal).
Proof.
  induction items as [|[k audio] rest IH]; intros offset padding (e & Hin & Hbad).
  - destruct Hin.
  - cbn [write_index].
    destruct (int k) as [i|err] eqn:I; cbn [bind].
    + destruct (pack_III i offset (len audio)) as [entry|err] eqn:PK; cbn [bind].
      * apply pack_III_inv in PK. destruct PK as (Hi & _ & _ & _).
        destruct Hin as [<-|Hin].
        -- exfalso. apply Hbad. now exists i.
        -- destruct (IH (offset + (len audio + padding_of (len audio)))
                        (Some (padding_of (len audio)))) as (err & -> & C).
           ++ now exists e.
           ++ exists err. now split.
      * exists err. split; [reflexivity|]. left. now apply pack_III_raise in PK.
    + exists err. split; [reflexivity|]. right. exists k. now apply int_raise in I.
Qed.

Lemma write_index_table (items : OrderedDict.t AudioItem) :
  forall offset padding index last,
    write_index items offset padding = Ok (index, last) ->
    exists ids,
      Forall2 (fun e id => int (fst e) = Ok id /\ 0 <= id < 2 ^ 32) items ids
      /\ index = index_table (combine ids (map len (OrderedDict.values items)))
                             offset.
Proof.
  induction items as [|[k audio] rest IH]; intros offset padding index last W.
  - cbn in W. injection W as <- _. exists []. split; [constructor | reflexivity].
  - cbn [write_index] in W.
    destruct (int k) as [i|] eqn:I; [|discriminate]. cbn [bind] in W.
    destruct (pack_III _ _ _) as [entry|] eqn:PK; [|discriminate]. cbn [bind] in W.
    destruct (write_index rest _ _) as [[out last']|] eqn:WR; [|discriminate].
    cbn in W. injection W as <- <-.
    apply pack_III_inv in PK. destruct PK as (Hi & _ & _ & ->).
    destruct (IH _ _ _ _ WR) as (ids & F & ->).
    exists (i :: ids). split; [constructor; auto | reflexivity].
Qed.

Lemma span_nonneg_len (items : OrderedDict.t AudioItem) :
  Forall (fun e => 0 <= len (snd e)) items -> 0 <= span items.
Proof.
  induction 1 as [|[k audio] rest Hl F IH]; cbn [span]; [lia|].
  cbn in Hl. pose proof (padding_of_range (len audio)). destruct rest; lia.
Qed.

Lemma packable_len (items : OrderedDict.t AudioItem) :
  Forall packable items -> Forall (fun e => 0 <= len (snd e)) items.
Proof. apply Forall_impl. intros e [_ H]. lia. Qed.

Lemma write_index_packable (items : OrderedDict.t AudioItem) :
  forall offset padding,
    Forall packable items ->
    0 <= offset -> offset + span items < 2 ^ 32 ->
    exists index, write_index items offset padding
                  = Ok (index, last_padding items padding).
Proof.
  induction items as [|[k audio] rest IH]; intros offset padding F Ho Hs.
  - now exists [].
  - inversion F as [|? ? [(id & Hk & Hid) Hlen] F']; subst. cbn in Hk, Hlen.
    pose proof (span_nonneg_len (packable_len F')) as Hr.
    pose proof (padding_of_range (len audio)) as Hp.
    cbn [write_index last_padding]. rewrite Hk. cbn [bind].
    rewrite pack_III_ok; [cbn [bind] | assumption | | assumption].
    + destruct rest as [|e rest].
      * cbn. now eexists.
      * destruct (IH (offset + (len audio + padding_of (len audio)))
                     (Some (padding_of (len audio))) F') as [out E].
        -- lia.
        -- change (span ((k, audio) :: e :: rest))
             with (len audio + padding_of (len audio) + span (e :: rest)) in Hs.
           lia.
        -- rewrite E. cbn. now eexists.
    + cbn [span] in Hs. destruct rest; lia.
Qed.

Lemma not_decimal (k : string) (v : Z) :
  int k = Ok v -> (forall r, k <> String "-" r) -> k <> str v ->
  forall n, k <> str n.
Proof.
  intros P M N n E. destruct (Z.ltb_spec n 0) as [L|L].
  - apply (M (str_digits (Z.to_nat (Z.log2 (- n))) (- n) "")).
    rewrite E. unfold str. destruct (Z.ltb_spec n 0); [reflexivity | lia].
  - destruct (str_parse L) as [Hns Pn]. rewrite <- E in Hns, Pn.
    unfold int in P.
    rewrite (lstrip_no_space _ Hns), (rstrip_no_space _ Hns), Pn in P.
    destruct (_ <=? _); [|discriminate].
    assert (v = n) by congruence. subst v. contradiction.
Qed.




(** * Further properties of the engine *)

(** ** The layout [to_file] writes *)

Lemma aligned_sum_cons e (items : OrderedDict.t AudioItem) :
  aligned_sum (e :: items) = align16 (len (snd e)) + aligned_sum items.
Proof. unfold aligned_sum. cbn [OrderedDict.values map]. apply sum_cons. Qed.

Lemma aligned_sum_divide (items : OrderedDict.t AudioItem) :
  (16 | aligned_sum items).
Proof.
  induction items as [|e items IH].
  - exists 0. reflexivity.
  - rewrite aligned_sum_cons. apply Z.divide_add_r; [|exact IH].
    apply align16_round_up.
Qed.

Lemma write_index_split (pre : OrderedDict.t AudioItem) :
  forall k audio post offset padding index last,
    write_index (pre ++ (k, audio) :: post) offset padding = Ok (index, last) ->
    exists id before after,
      int k = Ok id
      /\ index = before
                 ++ (le_bytes id ++ le_bytes (offset + aligned_sum pre)
                     ++ le_bytes (len audio))
                 ++ after
      /\ List.length before = (12 * List.length pre)%nat.
Proof.
  induction pre as [|[k0 a0] pre IH];
    intros k audio post offset padding index last W.
  - cbn [app write_index] in W.
    destruct (int k) as [i|] eqn:I; [|discriminate]. cbn [bind] in W.
    destruct (pack_III _ _ _) as [entry|] eqn:PK; [|discriminate]. cbn [bind] in W.
    destruct (write_index post _ _) as [[out last']|]; [|discriminate].
    cbn in W. injection W as <- _.
    apply pack_III_inv in PK. destruct PK as (_ & _ & _ & ->).
    exists i, [], out. split; [reflexivity|]. split; [|reflexivity].
    unfold aligned_sum, sum. cbn. now rewrite Z.add_0_r.
  - cbn [app write_index] in W.
    destruct (int k0) as [i0|]; [|discriminate]. cbn [bind] in W.
    destruct (pack_III _ _ _) as [entry|] eqn:PK; [|discriminate]. cbn [bind] in W.
    destruct (write_index (pre ++ _) _ _) as [[out last']|] eqn:WR; [|discriminate].
    cbn in W. injection W as <- _.
    apply pack_III_inv in PK. destruct PK as (_ & _ & _ & ->).
    destruct (IH _ _ _ _ _ _ _ WR) as (id & before & after & I & -> & L).
    exists id, ((le_bytes i0 ++ le_bytes offset ++ le_bytes (len a0)) ++ before), after.
    split; [exact I|]. split.
    + rewrite aligned_sum_cons, align16_padding. cbn [snd].
      replace (offset + (len a0 + padding_of (len a0) + aligned_sum pre))
        with (offset + (len a0 + padding_of (len a0)) + aligned_sum pre) by lia.
      now rewrite <- !app_assoc.
    + rewrite length_app, L. cbn [List.length app le_bytes]. lia.
Qed.

Lemma write_audio_split (pre : OrderedDict.t AudioItem) :
  forall k audio post padding,
    0 <= padding ->
    Forall loaded (pre ++ (k, audio) :: post) ->
    exists before after,
      write_audio (pre ++ (k, audio) :: post) padding
      = before ++ data audio ++ after
      /\ Z.of_nat (List.length before) = padding + aligned_sum pre.
Proof.
  induction pre as [|[k0 a0] pre IH]; intros k audio post padding Hp F.
  - cbn [app write_audio].
    exists (repeat x00 (Z.to_nat padding)), (write_audio post (padding_of (len audio))).
    split; [reflexivity|]. rewrite repeat_length.
    unfold aligned_sum, sum. cbn. lia.
  - cbn [app] in F. inversion F as [|? ? Hl F']; subst.
    unfold loaded in Hl. cbn in Hl.
    destruct (IH k audio post (padding_of (len a0))
                 (proj1 (padding_of_range _)) F') as (before & after & E & L).
    cbn [app write_audio]. rewrite E.
    exists (repeat x00 (Z.to_nat padding) ++ data a0 ++ before), after.
    split; [now rewrite <- !app_assoc|].
    rewrite !length_app, repeat_length, !Nat2Z.inj_add, L, Hl.
    rewrite aligned_sum_cons, align16_padding. cbn [snd]. lia.
Qed.

(** X1 (offset table).  In every file [to_file] writes for a bank whose
    items hold as many bytes as their length says, the index entry of
    each item records the id, the offset and the length, and that offset
    is where the item's bytes start within the payload region; it is a
    multiple of 16, the sum of the rounded-up lengths of the items that
    come before. *)
Theorem index_offsets_locate_payload (self : InstrumentBank) (out : list byte)
    pre k audio post :
  to_file self = Ok out ->
  audio_items self = pre ++ (k, audio) :: post ->
  Forall loaded (audio_items self) ->
  exists index length id index_before index_after payload_before payload_after,
    out = words (header self)
          ++ (le_bytes MAGIC_DIDX
              ++ le_bytes (Z.of_nat (List.length (audio_items self)) * 12))
          ++ index
          ++ (le_bytes MAGIC_AUDIO ++ le_bytes length)
          ++ write_audio (audio_items self) 0 ++ trailing_data self
    /\ int k = Ok id
    /\ index = index_before
               ++ (le_bytes id ++ le_bytes (aligned_sum pre) ++ le_bytes (len audio))
               ++ index_after
    /\ List.length index_before = (12 * List.length pre)%nat
    /\ write_audio (audio_items self) 0
       = payload_before ++ data audio ++ payload_after
    /\ Z.of_nat (List.length payload_before) = aligned_sum pre
    /\ (16 | aligned_sum pre).
Proof.
  intros T E F. apply to_file_inv in T.
  destruct T as (index & padding & length & _ & _ & WI & _ & _ & ->).
  rewrite E in WI, F.
  destruct (write_index_split _ _ _ _ _ _ WI) as (id & ib & ia & I & EI & LI).
  destruct (write_audio_split pre k audio post (Z.le_refl 0) F)
    as (pb & pa & EP & LP).
  exists index, length, id, ib, ia, pb, pa.
  rewrite E. repeat split; auto.
  apply aligned_sum_divide.
Qed.

Lemma index_offsets_locate_payload_witness :
  exists payload_before payload_after,
    write_audio three_items 0
    = payload_before ++ repeat x02 20 ++ payload_after
    /\ Z.of_nat (List.length payload_before) = 16.
Proof.
  destruct (index_offsets_locate_payload three_item_bank
              [("1", mkAudioItem 10 (repeat x01 10))] "2"
              (mkAudioItem 20 (repeat x02 20)) [("3", mkAudioItem 0 [])]
              to_file_three_item_bank eq_refl)
    as (index & length & id & ib & ia & pb & pa & _ & _ & _ & _ & EP & LP & _).
  - repeat constructor.
  - exists pb, pa. split; [exact EP | exact LP].
Defined.

Lemma length_words (ws : list Z) :
  List.length (words ws) = (4 * List.length ws)%nat.
Proof.
  induction ws as [|w ws IH]; [reflexivity|].
  unfold words in *. cbn [flat_map]. rewrite length_app, IH.
  cbn [List.length le_bytes]. lia.
Qed.

(** X2 (file size).  The file [to_file] writes for a bank whose items
    hold as many bytes as their length says has 4 bytes per header word,
    two 8-byte descriptors, 12 bytes per item, the payloads with the
    padding between them but none after the last, and the trailing
    bytes. *)
Theorem to_file_size (self : InstrumentBank) (out : list byte) :
  to_file self = Ok out ->
  Forall loaded (audio_items self) ->
  Z.of_nat (List.length out)
  = 4 * Z.of_nat (List.length (header self)) + 16
    + 12 * Z.of_nat (List.length (audio_items self))
    + span (audio_items self)
    + Z.of_nat (List.length (trailing_data self)).
Proof.
  intros T F. apply to_file_inv in T.
  destruct T as (index & padding & length & _ & _ & WI & _ & _ & ->).
  destruct (write_index_last _ _ _ WI) as [LP LI].
  assert (N : audio_items self <> []).
  { intros E. rewrite E in LP. discriminate. }
  pose proof (write_audio_length (Z.le_refl 0) F N) as LA.
  rewrite !length_app, !Nat2Z.inj_add, length_words, LI, LA.
  cbn [List.length le_bytes]. lia.
Qed.

Lemma to_file_size_witness :
  Z.of_nat (List.length three_item_file) = 4 * 6 + 16 + 12 * 3 + 48 + 2.
Proof.
  rewrite (to_file_size three_item_bank to_file_three_item_bank).
  - reflexivity.
  - repeat constructor.
Defined.

(** ** What the parser reads *)

Lemma read_header_count (header1 : Z) (ws : list Z) :
  forall current_pos s r,
    read_header header1 current_pos s = Ok (ws, r) ->
    Z.of_nat (List.length ws) = Z.max 0 ((header1 + 8 - current_pos + 3) / 4).
Proof.
  induction ws as [|w ws IH]; intros cur s r H.
  - destruct s as [|a0 [|a1 [|a2 [|a3 s']]]]; simpl in H;
      destruct (Z.ltb_spec cur (header1 + 8)) as [C|C]; try discriminate.
    all: try (cbn [List.length];
              assert ((header1 + 8 - cur + 3) / 4 <= 0)
                by (apply Z.lt_succ_r, Z.div_lt_upper_bound; lia); lia).
    destruct (read_header header1 (cur + 4) s') as [[ws r0]|e]; discriminate.
  - destruct s as [|a0 [|a1 [|a2 [|a3 s']]]]; simpl in H;
      destruct (Z.ltb_spec cur (header1 + 8)) as [C|C]; try discriminate.
    destruct (read_header header1 (cur + 4) s') as [[ws0 r0]|e] eqn:E;
      [|discriminate].
    injection H as <- -> ->.
    cbn [List.length]. rewrite Nat2Z.inj_succ, (IH _ _ _ E).
    replace (header1 + 8 - cur + 3) with ((header1 + 8 - (cur + 4) + 3) + 1 * 4) by lia.
    rewrite Z.div_add by lia.
    assert (0 <= (header1 + 8 - (cur + 4) + 3) / 4) by (apply Z.div_pos; lia).
    lia.
Qed.

(** X3 (header words).  The header of a parsed bank starts with the four
    words of the preamble; with [h1] the second word, [h1 + 8] is where
    the header ends, and the bank holds every word that starts before
    that position: [(h1 + 8) / 4] words rounded up, and never fewer than
    four. *)
Theorem parsed_header_length (file : list byte) (bank : InstrumentBank) :
  _parse file = Ok bank ->
  exists h1,
    nth_error (header bank) 1 = Some h1
    /\ Z.of_nat (List.length (header bank)) = Z.max 4 ((h1 + 8 + 3) / 4).
Proof.
  unfold _parse. destruct (parse_file file) as [[b r]|] eqn:P; [|discriminate].
  intros H. injection H as ->.
  apply parse_file_inv in P.
  destruct P as (head & more & s1 & dl & items0 & s2 & al & items & tr
                 & U1 & RH & _ & _ & _ & _ & -> & _).
  apply unpack_IIII_inv in U1. destruct U1 as (w0 & w1 & w2 & w3 & -> & _ & _).
  cbn [nth] in RH. apply read_header_count in RH.
  exists w1. split; [reflexivity|].
  cbn [header]. rewrite length_app, Nat2Z.inj_add, RH. cbn [List.length].
  replace (w1 + 8 - 16 + 3) with ((w1 + 8 + 3) + (-4) * 4) by lia.
  rewrite Z.div_add by lia. lia.
Qed.

Lemma parsed_header_length_witness :
  exists h1,
    nth_error (header three_item_bank) 1 = Some h1
    /\ Z.of_nat (List.length (header three_item_bank)) = Z.max 4 ((h1 + 8 + 3) / 4).
Proof.
  apply (parsed_header_length three_item_file). vm_compute. reflexivity.
Defined.

Lemma read_index_consumes (n : nat) :
  forall items s items' r,
    read_index n items s = Ok (items', r) ->
    exists consumed, s = consumed ++ r /\ List.length consumed = (12 * n)%nat.
Proof.
  induction n as [|n IH]; intros items s items' r H.
  - cbn in H. injection H as _ <-. now exists [].
  - cbn [read_index] in H. unfold rbind, read, lift in H.
    change (Z.to_nat 12) with 12%nat in H.
    destruct (unpack_III (firstn 12 s)) as [[[id offset] length]|] eqn:U;
      [|discriminate].
    assert (L : List.length (firstn 12 s) = 12%nat).
    { revert U. generalize (firstn 12 s). intros bs.
      do 13 (destruct bs as [|? bs]; try discriminate). reflexivity. }
    destruct (IH _ _ _ _ H) as (c & E & Lc).
    exists (firstn 12 s ++ c). split.
    + now rewrite <- app_assoc, <- E, firstn_skipn.
    + rewrite length_app, L, Lc. lia.
Qed.

Lemma read_audio_consumes (items : OrderedDict.t AudioItem) :
  forall padding s items' r,
    read_audio items padding s = Ok (items', r) ->
    exists consumed,
      s = consumed ++ r
      /\ sum (map len (OrderedDict.values items')) <= Z.of_nat (List.length consumed).
Proof.
  induction items as [|[id audio] rest IH]; intros padding s items' r H.
  - cbn in H. injection H as <- <-. exists []. split; [reflexivity|].
    unfold sum. cbn. lia.
  - cbn [read_audio] in H. unfold rbind, read in H.
    set (s0 := skipn (Z.to_nat padding) s) in *.
    unfold fromfile in H.
    destruct (Z.ltb_spec (Z.of_nat (List.length s0)) (len audio)) as [L|L];
      [discriminate|].
    destruct (read_audio rest _ _) as [[rest' s2]|] eqn:RA; [|discriminate].
    cbn in H. injection H as <- <-.
    destruct (IH _ _ _ _ RA) as (c & E & Lc).
    exists (firstn (Z.to_nat padding) s ++ firstn (Z.to_nat (len audio)) s0 ++ c).
    split.
    + rewrite <- !app_assoc, <- E, firstn_skipn. subst s0. now rewrite firstn_skipn.
    + unfold OrderedDict.values in *. cbn [map snd len]. rewrite sum_cons.
      rewrite !length_app, !Nat2Z.inj_add, (length_firstn (Z.to_nat (len audio))).
      lia.
Qed.

(** X4 (nothing invented).  A file that parses starts with the header
    words of the bank and ends with its trailing bytes; what lies between
    holds at least the two 8-byte descriptors, 12 bytes per item and the
    bytes of every item.  So no file shorter than 32 bytes parses. *)
Theorem parse_accounts_for_file (file : list byte) (bank : InstrumentBank) :
  _parse file = Ok bank ->
  (exists chunks,
     file = words (header bank) ++ chunks ++ trailing_data bank
     /\ 16 + 12 * Z.of_nat (List.length (audio_items bank))
        + sum (map len (OrderedDict.values (audio_items bank)))
        <= Z.of_nat (List.length chunks))
  /\ (32 <= List.length file)%nat.
Proof.
  unfold _parse. destruct (parse_file file) as [[b r]|] eqn:P; [|discriminate].
  intros H. injection H as ->.
  apply parse_file_inv in P.
  destruct P as (head & more & s1 & dl & items0 & s2 & al & items & tr
                 & U1 & RH & U2 & RI & U3 & RA & -> & _).
  cbn [header audio_items trailing_data].
  pose proof (unpack_IIII_inv _ U1) as (w0 & w1 & w2 & w3 & Eh & E16 & _).
  pose proof (read_header_words _ _ _ RH) as (Em & _ & _).
  pose proof (unpack_II_inv _ U2) as E8.
  pose proof (unpack_II_inv _ U3) as E8'.
  destruct (read_index_consumes _ _ _ RI) as (c1 & Ec1 & Lc1).
  destruct (read_audio_consumes _ _ _ RA) as (c2 & Ec2 & Lc2).
  pose proof RI as RI'. apply read_index_inv in RI'; [|constructor|constructor].
  destruct RI' as (F0 & _ & L0).
  pose proof RA as RA'. apply read_audio_inv in RA'; [|exact F0].
  destruct RA' as [F K].
  assert (LI : (List.length items <= Z.to_nat (dl / 12))%nat).
  { unfold OrderedDict.keys in K.
    rewrite <- (length_map fst items), K, length_map. cbn in L0. lia. }
  assert (EF : file = words (head ++ more)
                      ++ (firstn 8 s1 ++ c1 ++ firstn 8 s2 ++ c2) ++ tr).
  { rewrite <- (firstn_skipn 16 file) at 1. rewrite E16, Em.
    rewrite <- (firstn_skipn 8 s1) at 1. rewrite Ec1.
    rewrite <- (firstn_skipn 8 s2) at 1. rewrite Ec2.
    unfold words. rewrite flat_map_app. now rewrite <- !app_assoc. }
  assert (LC : 16 + 12 * Z.of_nat (List.length items)
               + sum (map len (OrderedDict.values items))
               <= Z.of_nat (List.length (firstn 8 s1 ++ c1 ++ firstn 8 s2 ++ c2))).
  { rewrite !length_app, E8, E8', !length_app, Lc1.
    cbn [List.length le_bytes]. lia. }
  split.
  - eexists. split; [exact EF | exact LC].
  - assert (0 <= sum (map len (OrderedDict.values items))).
    { clear -F. induction F as [|e l [[_ Hl] _] _ IH].
      - unfold sum. cbn. lia.
      - unfold OrderedDict.values in *. cbn [map]. rewrite sum_cons. lia. }
    apply (f_equal (@List.length byte)) in EF.
    rewrite !length_app, length_words in EF. rewrite !length_app in LC.
    rewrite Eh in EF. rewrite length_app in EF. cbn [List.length] in EF. lia.
Qed.

Lemma parse_accounts_for_file_witness :
  (32 <= List.length three_item_file)%nat.
Proof.
  apply (parse_accounts_for_file three_item_file (bank := three_item_bank)).
  vm_compute. reflexivity.
Defined.

(** X5 (payload magic).  Once the header and the index table are read,
    a payload-chunk descriptor whose magic word is not 0x41544144 ends
    the parse with a [ValueError] that names the expected 41544144 and
    the word that was read; no bank is returned. *)
Theorem audio_magic_mismatch (file : list byte) head more s1 didx_length
    items0 s2 magic chunk_length :
  unpack_IIII (firstn 16 file) = Ok head ->
  read_header (nth 1 head 0) 16 (skipn 16 file) = Ok (more, s1) ->
  unpack_II (firstn 8 s1) = Ok (MAGIC_DIDX, didx_length) ->
  read_index (Z.to_nat (didx_length / 12)) [] (skipn 8 s1) = Ok (items0, s2) ->
  unpack_II (firstn 8 s2) = Ok (magic, chunk_length) ->
  magic <> MAGIC_AUDIO ->
  _parse file
  = Raise (ValueError ("AUDIO magic number expected (41544144), got "
                       ++ format_08X magic ++ " instead")%string).
Proof.
  intros U1 RH U2 RI U3 N.
  unfold _parse. rewrite (parse_file_after_header file U1 RH).
  unfold parse_index_chunk, parse_audio_chunk, rbind, read, lift, raise.
  change (Z.to_nat 8) with 8%nat. rewrite U2, Z.eqb_refl. cbn [negb].
  rewrite RI, U3.
  destruct (Z.eqb_spec magic MAGIC_AUDIO); [contradiction | reflexivity].
Qed.

Lemma audio_magic_mismatch_witness :
  _parse bad_audio_magic_file
  = Raise (ValueError
             "AUDIO magic number expected (41544144), got 41544145 instead").
Proof.
  apply (audio_magic_mismatch bad_audio_magic_file
           (head := [0x44484B42; 8; 1; 7]) (more := [])
           (s1 := words [MAGIC_DIDX; 12; 5; 0; 0; 0x41544145; 0])
           (didx_length := 12) (items0 := [("5", mkAudioItem 0 [])])
           (s2 := words [0x41544145; 0]) (magic := 0x41544145)
           (chunk_length := 0));
    vm_compute; (reflexivity || discriminate).
Defined.

(** ** Sessions: what every reachable bank keeps *)

Section SessionFacts.
Variable splitext : string -> string * string.

Lemma update_keys_NoDup fs (to_update : list string) :
  forall self, NoDup (OrderedDict.keys (audio_items self)) ->
    NoDup (OrderedDict.keys (audio_items (fst (update splitext fs to_update self)))).
Proof.
  induction to_update as [|file rest IH]; intros self D; cbn [update].
  - exact D.
  - destruct (splitext file) as [id ext]. destruct (fs file) as [bytes|].
    + apply IH. cbn. now apply setitem_NoDup.
    + exact D.
Qed.

Lemma empty_keys_NoDup (to_remove : list string) :
  forall self, NoDup (OrderedDict.keys (audio_items self)) ->
    NoDup (OrderedDict.keys (audio_items (fst (empty splitext to_remove self)))).
Proof.
  induction to_remove as [|name rest IH]; intros self D; cbn [empty].
  - exact D.
  - destruct (splitext name) as [id ext]. apply IH. cbn. now apply setitem_NoDup.
Qed.

Lemma update_frame fs (to_update : list string) :
  forall self,
    header (fst (update splitext fs to_update self)) = header self
    /\ trailing_data (fst (update splitext fs to_update self)) = trailing_data self
    /\ (dirty self = true -> dirty (fst (update splitext fs to_update self)) = true).
Proof.
  induction to_update as [|file rest IH]; intros self; cbn [update].
  - auto.
  - destruct (splitext file) as [id ext]. destruct (fs file) as [bytes|].
    + destruct (IH (set_item id (mkAudioItem (Z.of_nat (List.length bytes)) bytes) self))
        as (H & T & D).
      cbn in H, T, D. auto.
    + auto.
Qed.

Lemma empty_frame (to_remove : list string) :
  forall self,
    header (fst (empty splitext to_remove self)) = header self
    /\ trailing_data (fst (empty splitext to_remove self)) = trailing_data self
    /\ (dirty self = true -> dirty (fst (empty splitext to_remove self)) = true).
Proof.
  induction to_remove as [|name rest IH]; intros self; cbn [empty].
  - auto.
  - destruct (splitext name) as [id ext].
    destruct (IH (set_item id (mkAudioItem 0 []) self)) as (H & T & D).
    cbn in H, T, D. auto.
Qed.
End SessionFacts.

Lemma reachable_shape (bank : InstrumentBank) :
  reachable bank ->
  (exists w0 w1 w2 w3 more,
      header bank = [w0; w1; w2; w3] ++ more
      /\ Forall (fun w => 0 <= w < 2 ^ 32) (header bank)
      /\ forall r, read_header w1 16 (words more ++ r) = Ok (more, r))
  /\ NoDup (OrderedDict.keys (audio_items bank))
  /\ Forall loaded (audio_items bank).
Proof.
  induction 1 as [file bank P | splitext fs files bank R IH
                  | splitext names bank R IH].
  - apply parse_parsed in P. destruct P as [Hh Fi Dk _ _].
    repeat split; auto. eapply Forall_impl; [|exact Fi]. now intros e [].
  - destruct IH as (Hh & Dk & Fl).
    destruct (update_frame splitext fs files bank) as (-> & _ & _).
    split; [exact Hh|]. split; [now apply update_keys_NoDup | now apply update_loaded].
  - destruct IH as (Hh & Dk & Fl).
    destruct (empty_frame splitext names bank) as (-> & _ & _).
    split; [exact Hh|]. split; [now apply empty_keys_NoDup | now apply empty_loaded].
Qed.

(** X6 (unique ids).  No bank a session can hold lists an id twice: the
    parser keeps one item for an id the index table repeats, and [update]
    and [empty] replace the item of an id that is already there. *)
Theorem reachable_ids_unique (bank : InstrumentBank) :
  reachable bank -> NoDup (OrderedDict.keys (audio_items bank)).
Proof. intros R. apply (reachable_shape R). Qed.

Example parse_repeated_id_file :
  _parse repeated_id_file
  = Ok (mkBank [0x44484B42; 8; 1; 7] [("5", mkAudioItem 1 [x2a])] [] false).
Proof. vm_compute. reflexivity. Qed.

Lemma reachable_ids_unique_witness :
  NoDup (OrderedDict.keys
           (audio_items
              (fst (empty posix_splitext ["5.wem"; "5"]
                      (mkBank [0x44484B42; 8; 1; 7] [("5", mkAudioItem 1 [x2a])]
                              [] false))))).
Proof.
  apply reachable_ids_unique, reachable_empty.
  apply (reachable_parse repeated_id_file). vm_compute. reflexivity.
Defined.

(** X7 (a session never touches header or trailing bytes).  Whatever
    [update] and [empty] calls follow the parse, the header words and the
    trailing bytes of the bank stay those of the parsed file, and a flag
    [dirty] that is set stays set. *)
Theorem mutations_keep_header_and_trailing
    (splitext : string -> string * string) (fs : string -> option (list byte))
    (to_update to_remove : list string) (self : InstrumentBank) :
  let after_update := fst (update splitext fs to_update self) in
  let after_empty := fst (empty splitext to_remove self) in
  header after_update = header self
  /\ trailing_data after_update = trailing_data self
  /\ header after_empty = header self
  /\ trailing_data after_empty = trailing_data self
  /\ (dirty self = true -> dirty after_update = true /\ dirty after_empty = true).
Proof.
  cbv zeta.
  destruct (update_frame splitext fs to_update self) as (H1 & T1 & D1).
  destruct (empty_frame splitext to_remove self) as (H2 & T2 & D2).
  repeat split; auto.
Qed.

Lemma write_index_lens (items : OrderedDict.t AudioItem) :
  forall offset padding index last,
    write_index items offset padding = Ok (index, last) ->
    Forall (fun e => 0 <= len (snd e) < 2 ^ 32) items.
Proof.
  induction items as [|[k audio] rest IH]; intros offset padding index last W.
  - constructor.
  - cbn [write_index] in W.
    destruct (int k) as [i|]; [|discriminate]. cbn [bind] in W.
    destruct (pack_III _ _ _) as [entry|] eqn:PK; [|discriminate]. cbn [bind] in W.
    destruct (write_index rest _ _) as [[out last']|] eqn:WR; [|discriminate].
    apply pack_III_inv in PK. destruct PK as (_ & _ & Hl & _).
    constructor; [exact Hl | exact (IH _ _ _ _ WR)].
Qed.

(** X8 (reopen after save).  Take any bank a session can hold whose ids
    are all the decimal text of a 32-bit number.  If [to_file] writes it,
    parsing the written file gives back the same header words, the same
    items in the same order and the same trailing bytes, with [dirty]
    cleared. *)
Theorem reopen_after_save (bank : InstrumentBank) (out : list byte) :
  reachable bank ->
  Forall decimal_id (OrderedDict.keys (audio_items bank)) ->
  to_file bank = Ok out ->
  _parse out
  = Ok (mkBank (header bank) (audio_items bank) (trailing_data bank) false).
Proof.
  intros R K T.
  destruct (reachable_shape R) as (Hh & Dk & Fl).
  pose proof (to_file_inv _ T) as (index & padding & length & _ & Hn & WI & _ & _ & _).
  pose proof (write_index_lens _ _ _ WI) as Fn.
  apply roundtrip_parsed; [|destruct bank; exact T].
  constructor; cbn [header audio_items trailing_data dirty]; auto; [|lia].
  unfold OrderedDict.keys in K. rewrite Forall_map in K.
  rewrite Forall_forall in *. intros e He. repeat split.
  - destruct (K e He) as (id & Hid & E). now exists id.
  - apply (Fn e He).
  - apply (Fn e He).
  - apply (Fl e He).
Qed.

Lemma reopen_after_save_witness :
  exists out,
    to_file (fst (update posix_splitext (one_file "7.wem" [x0a; x0b]) ["7.wem"]
                         three_item_bank)) = Ok out
    /\ _parse out
       = Ok (mkBank (header three_item_bank)
                    (three_items ++ [("7", mkAudioItem 2 [x0a; x0b])])
                    [xfe; xff] false).
Proof.
  eexists. split; [vm_compute; reflexivity|].
  apply (reopen_after_save
           (bank := fst (update posix_splitext (one_file "7.wem" [x0a; x0b])
                                ["7.wem"] three_item_bank))).
  - apply reachable_update, (reachable_parse three_item_file).
    vm_compute. reflexivity.
  - repeat constructor;
      [exists 1 | exists 2 | exists 3 | exists 7];
      (split; [split; [discriminate | reflexivity] | vm_compute; reflexivity]).
  - vm_compute. reflexivity.
Defined.

(** ** How the mutations compose *)

Section MappingLaws.
Variable V : Type.
Implicit Types (d : OrderedDict.t V) (k : string) (v : V).

Lemma setitem_overwrite k v v' d :
  OrderedDict.setitem k v' (OrderedDict.setitem k v d) = OrderedDict.setitem k v' d.
Proof.
  induction d as [|[k0 v0] d IH]; cbn [OrderedDict.setitem].
  - now rewrite String.eqb_refl.
  - destruct (String.eqb k0 k) eqn:E; cbn [OrderedDict.setitem]; rewrite E;
      [reflexivity | now rewrite IH].
Qed.

Lemma setitem_getitem_other k k' v d :
  k' <> k ->
  OrderedDict.getitem k' (OrderedDict.setitem k v d) = OrderedDict.getitem k' d.
Proof.
  intros N. induction d as [|[k0 v0] d IH]; cbn [OrderedDict.setitem OrderedDict.getitem].
  - apply String.eqb_neq in N. rewrite String.eqb_sym in N. now rewrite N.
  - destruct (String.eqb_spec k0 k) as [->|N0]; cbn [OrderedDict.getitem].
    + apply not_eq_sym in N. apply String.eqb_neq in N. now rewrite N.
    + destruct (String.eqb k0 k'); [reflexivity | exact IH].
Qed.

Lemma getitem_NoDup k v d :
  NoDup (OrderedDict.keys d) -> In (k, v) d -> OrderedDict.getitem k d = Ok v.
Proof.
  induction d as [|[k0 v0] d IH]; intros D H; [destruct H|].
  cbn [OrderedDict.keys map fst] in D. inversion D as [|? ? N D']; subst.
  cbn [OrderedDict.getitem]. destruct H as [H|H].
  - injection H as -> ->. now rewrite String.eqb_refl.
  - destruct (String.eqb_spec k0 k) as [->|_].
    + exfalso. apply N. unfold OrderedDict.keys.
      change k with (fst (k, v)). now apply in_map.
    + now apply IH.
Qed.

Lemma getitem_absent k d :
  ~ In k (OrderedDict.keys d) -> OrderedDict.getitem k d = Raise (KeyError k).
Proof.
  induction d as [|[k0 v0] d IH]; intros N; [reflexivity|].
  cbn [OrderedDict.getitem]. cbn in N.
  destruct (String.eqb_spec k0 k) as [->|_]; [tauto|]. apply IH. tauto.
Qed.

Lemma getitem_present k d :
  In k (OrderedDict.keys d) -> exists v, OrderedDict.getitem k d = Ok v.
Proof.
  induction d as [|[k0 v0] d IH]; intros H; [destruct H|].
  cbn [OrderedDict.getitem]. cbn in H.
  destruct (String.eqb_spec k0 k) as [->|N]; [now exists v0|].
  apply IH. destruct H; [contradiction | assumption].
Qed.
End MappingLaws.

(** X9 (last write wins).  An [update] followed by an [empty] of the same
    id leaves the bank that the [empty] alone would leave: a zero-length
    item at the place the id had, or at the end if it is new.  The same
    holds for two [update] calls of one id: only the second file counts. *)
Theorem later_mutation_overwrites (splitext : string -> string * string)
    (fs : string -> option (list byte)) (file name file' : string)
    (bytes bytes' : list byte) (self : InstrumentBank) :
  fs file = Some bytes ->
  fs file' = Some bytes' ->
  fst (splitext name) = fst (splitext file) ->
  fst (splitext file') = fst (splitext file) ->
  fst (empty splitext [name] (fst (update splitext fs [file] self)))
  = fst (empty splitext [name] self)
  /\ fst (update splitext fs [file'] (fst (update splitext fs [file] self)))
     = fst (update splitext fs [file'] self).
Proof.
  intros E E' En Ef.
  rewrite !empty_one, !(update_one splitext fs _ _ E), !(update_one splitext fs _ _ E').
  cbn [fst]. unfold set_item. cbn [header audio_items trailing_data].
  rewrite En, Ef, !setitem_overwrite. split; reflexivity.
Qed.

Lemma later_mutation_overwrites_witness :
  fst (empty posix_splitext ["1"]
         (fst (update posix_splitext (one_file "1.wem" [x0a; x0b; x0c; x0d; x0e])
                      ["1.wem"] three_item_bank)))
  = mkBank (header three_item_bank)
           [("1", mkAudioItem 0 []);
            ("2", mkAudioItem 20 (repeat x02 20));
            ("3", mkAudioItem 0 [])]
           [xfe; xff] true.
Proof.
  rewrite (proj1 (later_mutation_overwrites posix_splitext
                    (one_file "1.wem" [x0a; x0b; x0c; x0d; x0e])
                    "1.wem" "1" "1.wem" three_item_bank
                    (bytes := [x0a; x0b; x0c; x0d; x0e])
                    (bytes' := [x0a; x0b; x0c; x0d; x0e])
                    eq_refl eq_refl eq_refl eq_refl)).
  vm_compute. reflexivity.
Defined.

(** X10 (other items untouched).  [update] of one id and [empty] of one
    id change the item of no other id: looking up any other id gives what
    it gave before, a [KeyError] included. *)
Theorem mutation_leaves_other_items (splitext : string -> string * string)
    (fs : string -> option (list byte)) (file name other : string)
    (self : InstrumentBank) :
  (other <> fst (splitext file) ->
   OrderedDict.getitem other (audio_items (fst (update splitext fs [file] self)))
   = OrderedDict.getitem other (audio_items self))
  /\ (other <> fst (splitext name) ->
      OrderedDict.getitem other (audio_items (fst (empty splitext [name] self)))
      = OrderedDict.getitem other (audio_items self)).
Proof.
  split; intros N.
  - cbn [update]. destruct (splitext file) as [id ext]. cbn [fst] in N.
    destruct (fs file) as [bytes|]; [|reflexivity].
    cbn. now apply setitem_getitem_other.
  - rewrite empty_one. cbn. now apply setitem_getitem_other.
Qed.

Lemma mutation_leaves_other_items_witness :
  OrderedDict.getitem "2"
    (audio_items (fst (empty posix_splitext ["1.wem"] three_item_bank)))
  = Ok (mkAudioItem 20 (repeat x02 20)).
Proof.
  rewrite (proj2 (mutation_leaves_other_items posix_splitext (fun _ => None)
                    "" "1.wem" "2" three_item_bank)).
  - reflexivity.
  - vm_compute. discriminate.
Defined.

Lemma update_app (splitext : string -> string * string)
    (fs : string -> option (list byte)) (first : list string) :
  forall rest self,
    update splitext fs (first ++ rest) self
    = match snd (update splitext fs first self) with
      | None => update splitext fs rest (fst (update splitext fs first self))
      | Some e => update splitext fs first self
      end.
Proof.
  induction first as [|file first IH]; intros rest self; cbn [app update].
  - reflexivity.
  - destruct (splitext file) as [id ext]. destruct (fs file) as [bytes|].
    + apply IH.
    + reflexivity.
Qed.

Lemma update_all_found (splitext : string -> string * string)
    (fs : string -> option (list byte)) (files : list string) :
  Forall (fun file => fs file <> None) files ->
  forall self, snd (update splitext fs files self) = None.
Proof.
  induction 1 as [|file files Hf _ IH]; intros self; cbn [update].
  - reflexivity.
  - destruct (splitext file) as [id ext]. destruct (fs file); [apply IH | congruence].
Qed.

(** X11 (a batch stops at the first missing file).  When [update] is
    given files of which one cannot be opened, it raises
    [FileNotFoundError] for the first such file; the files named before
    it have been applied to the bank, with [dirty] set if there is any,
    and the files named after it have not. *)
Theorem update_stops_at_missing_file (splitext : string -> string * string)
    (fs : string -> option (list byte)) (before after : list string)
    (missing : string) (self : InstrumentBank) :
  Forall (fun file => fs file <> None) before ->
  fs missing = None ->
  update splitext fs (before ++ missing :: after) self
  = (fst (update splitext fs before self), Some (FileNotFoundError missing))
  /\ snd (update splitext fs before self) = None
  /\ (before <> [] -> dirty (fst (update splitext fs before self)) = true).
Proof.
  intros F M. pose proof (@update_all_found splitext fs before F self) as S.
  rewrite update_app, S. split; [|split; [reflexivity|]].
  - cbn [update]. destruct (splitext missing). now rewrite M.
  - intros N. destruct before as [|file before]; [congruence|].
    inversion F as [|? ? Hf _]; subst. cbn [update].
    destruct (splitext file) as [id ext]. destruct (fs file) as [bytes|]; [|congruence].
    now apply update_frame.
Qed.

Lemma update_stops_at_missing_file_witness :
  update posix_splitext (one_file "7.wem" [x0a; x0b]) ["7.wem"; "8.wem"; "1.wem"]
         three_item_bank
  = (mkBank (header three_item_bank)
            (three_items ++ [("7", mkAudioItem 2 [x0a; x0b])])
            [xfe; xff] true,
     Some (FileNotFoundError "8.wem")).
Proof.
  assert (F : Forall (fun file => one_file "7.wem" [x0a; x0b] file <> None)
                     ["7.wem"])
    by (repeat constructor; discriminate).
  pose proof (proj1 (@update_stops_at_missing_file posix_splitext
                       (one_file "7.wem" [x0a; x0b]) ["7.wem"] ["1.wem"] "8.wem"
                       three_item_bank F eq_refl)) as H.
  cbn [app] in H. rewrite H. vm_compute. reflexivity.
Defined.

(** ** Extraction *)

Section ExtractionFacts.
Variable splitext : string -> string * string.

Lemma extract_loop_found (files : list string) (self : InstrumentBank) :
  Forall (fun file => In (fst (splitext file))
                         (OrderedDict.keys (audio_items self))) files ->
  exists written,
    extract_loop splitext files self = (written, None)
    /\ map fst written = map (fun file => (fst (splitext file) ++ ".wem")%string) files.
Proof.
  induction 1 as [|file files Hf _ (written & E & M)]; cbn [extract_loop].
  - now exists [].
  - destruct (splitext file) as [id ext] eqn:S. cbn [fst] in *.
    destruct (getitem_present _ _ Hf) as (audio & ->). rewrite E.
    eexists. split; [reflexivity|]. cbn [map fst]. now rewrite S, M.
Qed.

Lemma extract_loop_app (first : list string) :
  forall rest self,
    extract_loop splitext (first ++ rest) self
    = match extract_loop splitext first self with
      | (written, None) =>
          (written ++ fst (extract_loop splitext rest self),
           snd (extract_loop splitext rest self))
      | (written, Some e) => (written, Some e)
      end.
Proof.
  induction first as [|file first IH]; intros rest self; cbn [app extract_loop].
  - now destruct (extract_loop splitext rest self).
  - destruct (splitext file) as [id ext].
    destruct (OrderedDict.getitem id (audio_items self)) as [audio|e]; [|reflexivity].
    rewrite IH. destruct (extract_loop splitext first self) as [written [e|]];
      reflexivity.
Qed.

Lemma extract_loop_all (items : OrderedDict.t AudioItem) (self : InstrumentBank) :
  (forall e, In e items ->
             fst (splitext (fst e ++ ".wem")%string) = fst e
             /\ OrderedDict.getitem (fst e) (audio_items self) = Ok (snd e)) ->
  extract_loop splitext
    (map (fun id => (id ++ ".wem")%string) (OrderedDict.keys items)) self
  = (map (fun e => ((fst e ++ ".wem")%string, data (snd e))) items, None).
Proof.
  induction items as [|[k audio] items IH]; intros H; [reflexivity|].
  cbn [OrderedDict.keys map fst extract_loop].
  destruct (H (k, audio) (or_introl eq_refl)) as [S G]. cbn [fst snd] in S, G.
  destruct (splitext (k ++ ".wem")) as [id ext]. cbn [fst] in S. subst id.
  rewrite G. unfold OrderedDict.keys in IH. rewrite IH.
  - reflexivity.
  - intros e He. apply H. now right.
Qed.
End ExtractionFacts.

(** X12 (unknown id).  When [extract] is given names of which one is not
    an id of the bank, it raises [KeyError] for the first such id; the
    names before it have each been written to their [.wem] file and
    nothing is written for the names after it. *)
Theorem extract_unknown_id (splitext : string -> string * string)
    (before after : list string) (unknown : string) (self : InstrumentBank) :
  Forall (fun file => In (fst (splitext file))
                         (OrderedDict.keys (audio_items self))) before ->
  ~ In (fst (splitext unknown)) (OrderedDict.keys (audio_items self)) ->
  exists written,
    extract splitext (Some (before ++ unknown :: after)) self
    = (written, Some (KeyError (fst (splitext unknown))))
    /\ map fst written
       = map (fun file => (fst (splitext file) ++ ".wem")%string) before.
Proof.
  intros F N. destruct (@extract_loop_found splitext before self F) as (written & E & M).
  exists written. split; [|exact M].
  unfold extract.
  replace (match before ++ unknown :: after with
           | [] => map (fun id => (id ++ ".wem")%string)
                       (OrderedDict.keys (audio_items self))
           | _ :: _ => before ++ unknown :: after
           end) with (before ++ unknown :: after) by (destruct before; reflexivity).
  rewrite extract_loop_app, E. cbn [extract_loop].
  destruct (splitext unknown) as [id ext]. cbn [fst] in *.
  rewrite (getitem_absent _ _ N). cbn [fst snd]. now rewrite app_nil_r.
Qed.

Lemma extract_unknown_id_witness :
  exists written,
    extract posix_splitext (Some ["2.wem"; "999"; "1"]) three_item_bank
    = (written, Some (KeyError "999"))
    /\ map fst written = ["2.wem"].
Proof.
  apply (@extract_unknown_id posix_splitext ["2.wem"] ["1"] "999" three_item_bank).
  - constructor; [vm_compute; tauto | constructor].
  - vm_compute. intuition discriminate.
Defined.

(** X13 (extract everything).  Called without names, or with an empty
    list, [extract] writes one file per item, in the order of the
    mapping: the file [id.wem] with the bytes of the item.  This holds
    for a bank that lists no id twice and whose ids [splitext] gives
    back from [id.wem]. *)
Theorem extract_all_items (splitext : string -> string * string)
    (self : InstrumentBank) :
  NoDup (OrderedDict.keys (audio_items self)) ->
  (forall id, In id (OrderedDict.keys (audio_items self)) ->
              fst (splitext (id ++ ".wem")%string) = id) ->
  extract splitext None self
  = (map (fun e => ((fst e ++ ".wem")%string, data (snd e))) (audio_items self),
     None)
  /\ extract splitext (Some []) self = extract splitext None self.
Proof.
  intros D S. split; [|reflexivity].
  unfold extract. apply extract_loop_all.
  intros [k audio] He. cbn [fst snd]. split.
  - apply S. unfold OrderedDict.keys. change k with (fst (k, audio)).
    now apply in_map.
  - now apply getitem_NoDup.
Qed.

Lemma extract_all_items_witness :
  extract posix_splitext None three_item_bank
  = ([("1.wem", repeat x01 10); ("2.wem", repeat x02 20); ("3.wem", [])], None).
Proof.
  apply (@extract_all_items posix_splitext three_item_bank).
  - repeat constructor; vm_compute; intuition discriminate.
  - vm_compute. intros id [<-|[<-|[<-|[]]]]; reflexivity.
Defined.

(** X14 (what was stored is what comes out).  After [update] has read a
    file for an id, [extract] of that name writes [id.wem] with exactly
    the bytes read; after [empty] of the name it writes [id.wem] with no
    byte at all. *)
Theorem extract_after_mutation (splitext : string -> string * string)
    (fs : string -> option (list byte)) (file : string) (bytes : list byte)
    (self : InstrumentBank) :
  fs file = Some bytes ->
  let id := fst (splitext file) in
  extract splitext (Some [file]) (fst (update splitext fs [file] self))
  = ([((id ++ ".wem")%string, bytes)], None)
  /\ extract splitext (Some [file]) (fst (empty splitext [file] self))
     = ([((id ++ ".wem")%string, [])], None).
Proof.
  intros E. cbv zeta. rewrite (update_one splitext fs file self E), empty_one.
  unfold extract. cbn [extract_loop fst set_item audio_items].
  destruct (splitext file) as [id ext]. cbn [fst].
  now rewrite !setitem_getitem.
Qed.

Lemma extract_after_mutation_witness :
  extract posix_splitext (Some ["7.wem"])
    (fst (update posix_splitext (one_file "7.wem" [x0a; x0b]) ["7.wem"]
                 three_item_bank))
  = ([("7.wem", [x0a; x0b])], None).
Proof.
  apply (extract_after_mutation posix_splitext (one_file "7.wem" [x0a; x0b])
           "7.wem" three_item_bank (bytes := [x0a; x0b]) eq_refl).
Defined.

(** ** Lists of names *)

Lemma append_empty_r (s : string) : (s ++ "")%string = s.
Proof. induction s as [|c s IH]; cbn; [reflexivity | now rewrite IH]. Qed.

Lemma append_assoc (a b c : string) :
  ((a ++ b) ++ c)%string = (a ++ (b ++ c))%string.
Proof. induction a as [|x a IH]; cbn; [reflexivity | now rewrite IH]. Qed.

Lemma no_space_append (a b : string) :
  no_space (a ++ b) = no_space a && no_space b.
Proof.
  induction a as [|x a IH]; cbn [append no_space]; [reflexivity|].
  now rewrite IH, andb_assoc.
Qed.

Lemma flush_clean (word : string) (found : list string) :
  no_space word = true -> Forall clean_name found ->
  Forall clean_name (flush word found).
Proof.
  intros W F. destruct word as [|c w]; [exact F|].
  constructor; [|exact F]. split; [discriminate | exact W].
Qed.

Lemma split_from_clean (text : string) :
  forall word, no_space word = true -> Forall clean_name (split_from text word).
Proof.
  induction text as [|c r IH]; intros word W; cbn [split_from].
  - apply flush_clean; [exact W | constructor].
  - destruct (is_space c) eqn:S.
    + apply flush_clean; [exact W | now apply IH].
    + apply IH. rewrite no_space_append, W. cbn. now rewrite S.
Qed.

Lemma filter_clean (names : list string) :
  Forall clean_name names ->
  filter (fun name => negb (String.eqb name "")) names = names.
Proof.
  induction 1 as [|name names [N _] _ IH]; [reflexivity|].
  cbn [filter]. apply String.eqb_neq in N. now rewrite N, IH.
Qed.

Lemma split_from_name (name : string) :
  forall (c : ascii) (rest word : string),
    no_space name = true -> is_space c = true ->
    split_from (name ++ String c rest) word
    = flush (word ++ name) (split_from rest "").
Proof.
  induction name as [|x name IH]; intros c rest word N S.
  - cbn [append split_from]. now rewrite S, append_empty_r.
  - cbn [no_space] in N. apply andb_true_iff in N. destruct N as [Nx N].
    apply negb_true_iff in Nx.
    cbn [append split_from]. rewrite Nx, (IH c rest _ N S).
    now rewrite append_assoc.
Qed.

Lemma split_lines (names : list string) :
  Forall clean_name names -> split (lines names) = names.
Proof.
  induction 1 as [|name names [N W] _ IH]; [reflexivity|].
  unfold split in *. cbn [lines fold_right].
  rewrite split_from_name by (exact W || reflexivity).
  fold (lines names). rewrite IH. cbn [append].
  now destruct name.
Qed.

(** X15 (names of a list file).  The names read from a list file are the
    runs of characters between white space: none is empty, none holds a
    white-space character, and the test [if name] of the source removes
    nothing.  A file that cannot be opened gives [FileNotFoundError]. *)
Theorem names_from_file_clean (read_text : string -> option string)
    (filename : string) :
  match read_text filename with
  | Some text =>
      names_from_file read_text filename = Ok (split text)
      /\ Forall clean_name (split text)
  | None =>
      names_from_file read_text filename = Raise (FileNotFoundError filename)
  end.
Proof.
  unfold names_from_file. destruct (read_text filename) as [text|]; [|reflexivity].
  assert (F : Forall clean_name (split text))
    by (apply split_from_clean; reflexivity).
  split; [|exact F]. now rewrite (filter_clean F).
Qed.

(** X16 (one name per line).  A list file that holds names, each followed
    by a line feed, none empty and none with white space inside, is read
    back as exactly those names in the same order. *)
Theorem names_from_file_lines (read_text : string -> option string)
    (filename : string) (names : list string) :
  read_text filename = Some (lines names) ->
  Forall clean_name names ->
  names_from_file read_text filename = Ok names.
Proof.
  intros E F. unfold names_from_file. rewrite E, (split_lines F).
  now rewrite (filter_clean F).
Qed.

Lemma names_from_file_lines_witness :
  names_from_file (one_text "list.txt" (lines ["1.wem"; "22.wem"])) "list.txt"
  = Ok ["1.wem"; "22.wem"].
Proof.
  apply names_from_file_lines; [reflexivity|].
  repeat constructor; (discriminate || reflexivity).
Defined.

Section ItemListFacts.
Variable read_text : string -> option string.

Lemma expand_item_list_app (first : list string) :
  forall rest,
    expand_item_list read_text (first ++ rest)
    = (x <- expand_item_list read_text first ;;
       y <- expand_item_list read_text rest ;;
       Ok (x ++ y))%result.
Proof.
  induction first as [|i first IH]; intros rest; cbn [app expand_item_list].
  - cbn [bind]. now destruct (expand_item_list read_text rest).
  - destruct (startswith_bracket i && endswith_bracket i).
    + destruct (names_from_file read_text (inner i)) as [names|e]; cbn [bind];
        [|reflexivity].
      rewrite IH. destruct (expand_item_list read_text first) as [x|e]; cbn [bind];
        [|reflexivity].
      destruct (expand_item_list read_text rest) as [y|e]; cbn [bind];
        [|reflexivity].
      now rewrite app_assoc.
    + rewrite IH. destruct (expand_item_list read_text first) as [x|e]; cbn [bind];
        [|reflexivity].
      now destruct (expand_item_list read_text rest).
Qed.

Lemma drop_last_append (s : string) (c : ascii) :
  drop_last (s ++ String c "") = s.
Proof.
  induction s as [|x s IH]; [reflexivity|].
  cbn [append drop_last]. rewrite IH. now destruct s.
Qed.

Lemma endswith_bracket_append (s : string) :
  endswith_bracket (s ++ "]") = true.
Proof.
  induction s as [|x s IH]; [reflexivity|].
  cbn [append endswith_bracket]. rewrite IH. now destruct s.
Qed.
End ItemListFacts.

Lemma expand_plain (read_text : string -> option string) (items : list string) :
  Forall (fun i => startswith_bracket i && endswith_bracket i = false) items ->
  expand_item_list read_text items = Ok items.
Proof.
  induction 1 as [|i items Hi _ IH]; cbn [expand_item_list]; [reflexivity|].
  now rewrite Hi, IH.
Qed.

(** X17 (plain names).  A list of names of which none is written between
    square brackets is returned as it is, and no file is read. *)
Theorem expand_item_list_plain (read_text : string -> option string)
    (items : list string) :
  Forall (fun i => startswith_bracket i && endswith_bracket i = false) items ->
  expand_item_list read_text items = Ok items.
Proof. apply expand_plain. Qed.

Lemma expand_item_list_plain_witness :
  expand_item_list (fun _ => None) ["1.wem"; "[2.wem"; "3]"; "]["]
  = Ok ["1.wem"; "[2.wem"; "3]"; "]["].
Proof. apply expand_item_list_plain. repeat constructor. Defined.

(** X18 (a bracketed name stands for the names of its file).  An item
    [[f]] is replaced, at its place in the list, by the names read from
    the file [f]; the items before and after it are expanded the same
    way, and the first file that cannot be opened ends the call with
    [FileNotFoundError]. *)
Theorem expand_item_list_bracket (read_text : string -> option string)
    (before after : list string) (f : string) :
  expand_item_list read_text (before ++ ("[" ++ f ++ "]")%string :: after)
  = (x <- expand_item_list read_text before ;;
     names <- names_from_file read_text f ;;
     y <- expand_item_list read_text after ;;
     Ok (x ++ names ++ y))%result.
Proof.
  rewrite expand_item_list_app. cbn [expand_item_list].
  change (startswith_bracket ("[" ++ f ++ "]")) with true.
  change (endswith_bracket ("[" ++ f ++ "]"))
    with (endswith_bracket (String "[" (f ++ "]"))).
  assert (E : endswith_bracket (String "[" (f ++ "]")) = true).
  { cbn [endswith_bracket]. rewrite endswith_bracket_append. now destruct f. }
  rewrite E. cbn [andb].
  change (inner ("[" ++ f ++ "]")) with (drop_last (f ++ "]")).
  rewrite drop_last_append.
  destruct (expand_item_list read_text before) as [x|e]; cbn [bind]; [|reflexivity].
  destruct (names_from_file read_text f) as [names|e]; cbn [bind]; [|reflexivity].
  now destruct (expand_item_list read_text after).
Qed.

(** ** Saving *)

Lemma write_header_ok (ws : list Z) (bytes : list byte) :
  pack_words ws = Ok bytes -> write_header ws = (bytes, Ok tt).
Proof.
  revert bytes. induction ws as [|w ws IH]; intros bytes H; cbn in H.
  - now injection H as <-.
  - cbn [write_header]. destruct (pack_I w) as [b|]; [|discriminate]. cbn in H.
    destruct (pack_words ws) as [bs|]; [|discriminate]. cbn in H.
    injection H as <-. unfold wbind, wlift, write. now rewrite (IH bs eq_refl).
Qed.

Lemma write_header_raise (ws : list Z) (e : exn) :
  pack_words ws = Raise e -> snd (write_header ws) = Raise e.
Proof.
  induction ws as [|w ws IH]; intros H; cbn in H; [discriminate|].
  cbn [write_header]. unfold wbind, wlift, write.
  destruct (pack_I w) as [b|]; cbn in H; [|now injection H as <-].
  destruct (pack_words ws) as [bs|e'] eqn:P; cbn in H; [discriminate|].
  injection H as <-. specialize (IH eq_refl).
  destruct (write_header ws) as [out r]. cbn in IH. now subst r.
Qed.

Lemma write_index_entries_ok (items : OrderedDict.t AudioItem) :
  forall offset padding index last,
    write_index items offset padding = Ok (index, last) ->
    write_index_entries items offset padding = (index, Ok last).
Proof.
  induction items as [|[k audio] rest IH]; intros offset padding index last W.
  - cbn in W. now injection W as <- <-.
  - cbn [write_index] in W. cbn [write_index_entries]. unfold wbind, wlift, write.
    destruct (int k) as [i|]; [|discriminate]. cbn [bind] in W.
    destruct (pack_III _ _ _) as [entry|]; [|discriminate]. cbn [bind] in W.
    destruct (write_index rest _ _) as [[out last']|] eqn:WR; [|discriminate].
    cbn in W. injection W as <- <-.
    rewrite (IH _ _ _ _ WR). cbn [app]. reflexivity.
Qed.

Lemma write_index_entries_raise (items : OrderedDict.t AudioItem) :
  forall offset padding e,
    write_index items offset padding = Raise e ->
    snd (write_index_entries items offset padding) = Raise e.
Proof.
  induction items as [|[k audio] rest IH]; intros offset padding e W.
  - discriminate.
  - cbn [write_index] in W. cbn [write_index_entries]. unfold wbind, wlift, write.
    destruct (int k) as [i|]; cbn [bind] in W; [|now injection W as <-].
    destruct (pack_III _ _ _) as [entry|]; cbn [bind] in W; [|now injection W as <-].
    destruct (write_index rest _ _) as [[out last']|e'] eqn:WR; cbn in W;
      [discriminate|].
    injection W as <-. specialize (IH _ _ _ WR).
    destruct (write_index_entries rest _ _) as [out r]. cbn in IH. now subst r.
Qed.

Ltac wstep := cbn [wbind wlift write app].

(** [write_file] returns when [to_file] does, with the same bytes. *)
Lemma write_file_ok (self : InstrumentBank) (out : list byte) :
  to_file self = Ok out -> write_file self = (out, Ok tt).
Proof.
  unfold to_file, write_file. intros H.
  destruct (pack_words _) as [hdr|] eqn:PW; [|discriminate]. cbn [bind] in H.
  destruct (pack_II MAGIC_DIDX _) as [didx|] eqn:PD; [|discriminate]. cbn [bind] in H.
  destruct (write_index _ _ _) as [[index [padding|]]|] eqn:WI; try discriminate.
  cbn [bind] in H.
  destruct (pack_II MAGIC_AUDIO _) as [audio_hdr|] eqn:PA; [|discriminate].
  cbn [bind] in H. injection H as <-.
  rewrite (write_header_ok _ PW). wstep.
  rewrite (write_index_entries_ok _ _ _ WI). wstep. rewrite PA. wstep.
  reflexivity.
Qed.

(** [write_file] raises what [to_file] raises. *)
Lemma write_file_raise (self : InstrumentBank) (e : exn) :
  to_file self = Raise e -> snd (write_file self) = Raise e.
Proof.
  unfold to_file, write_file. intros H.
  destruct (pack_words _) as [hdr|e0] eqn:PW; cbn [bind] in H.
  2:{ injection H as <-. pose proof (write_header_raise _ PW) as R.
      destruct (write_header (header self)) as [o r]. cbn in R. now subst r. }
  rewrite (write_header_ok _ PW). wstep.
  destruct (pack_II MAGIC_DIDX _) as [didx|e0] eqn:PD; cbn [bind] in H; wstep;
    [|now injection H as <-].
  destruct (write_index _ _ _) as [[index last]|e0] eqn:WI; cbn [bind] in H.
  2:{ injection H as <-. pose proof (write_index_entries_raise _ _ _ WI) as R.
      destruct (write_index_entries _ _ _) as [o r]. cbn in R. now subst r. }
  rewrite (write_index_entries_ok _ _ _ WI). wstep.
  destruct last as [padding|]; cbn [bind] in H; wstep; [|now injection H as <-].
  destruct (pack_II MAGIC_AUDIO _) as [audio_hdr|e0] eqn:PA; cbn [bind] in H; wstep;
    [discriminate | now injection H as <-].
Qed.

Lemma str_shape (n : Z) :
  0 <= n ->
  exists d r,
    0 <= d < 10 /\ str n = String (digit_char d) r
    /\ no_space (str n) = true
    /\ parse_digits 0 false (str n) = Some n.
Proof.
  intros Hn. unfold str. destruct (Z.ltb_spec n 0) as [L|_]; [lia|].
  set (fuel := Z.to_nat (Z.log2 n)).
  destruct (str_digits_head fuel n "") as (d & r & Hd & E).
  exists d, r. repeat split; try tauto.
  - now apply str_digits_no_space.
  - apply str_digits_parse. subst fuel. split; [lia|].
    destruct (Z.eq_dec n 0) as [->|Hz]; [reflexivity|].
    rewrite Z2Nat.id by apply Z.log2_nonneg.
    replace (Z.log2 n + 1) with (Z.succ (Z.log2 n)) by lia.
    apply Z.log2_spec. lia.
Qed.

Lemma parse_digits_zeros (k : nat) (s : string) :
  parse_digits 0 true (zeros k ++ s) = parse_digits 0 true s.
Proof. induction k as [|k IH]; [reflexivity | exact IH]. Qed.

Lemma no_space_zeros (k : nat) : no_space (zeros k) = true.
Proof. induction k as [|k IH]; [reflexivity | exact IH]. Qed.

Lemma parse_format_03d (i : Z) : 0 <= i -> parse_int (format_03d i) = Some i.
Proof.
  intros Hi. destruct (str_shape Hi) as (d & r & Hd & E & NS & P).
  pose proof (digit_val_char Hd) as DV.
  assert (P' : parse_digits 0 true (str i) = Some i).
  { rewrite E in *. cbn [parse_digits] in *. now rewrite DV in *. }
  unfold format_03d.
  destruct (3 - String.length (str i))%nat as [|k].
  - cbn [zeros append]. rewrite E, (parse_int_digit _ r DV), <- E. exact P.
  - change (zeros (S k) ++ str i)%string with (String "0" (zeros k ++ str i)).
    change (parse_int (String "0" (zeros k ++ str i)))
      with (parse_digits 0 true (zeros k ++ str i)).
    now rewrite parse_digits_zeros, P'.
Qed.

Lemma append_inj_l (p a b : string) : (p ++ a)%string = (p ++ b)%string -> a = b.
Proof.
  induction p as [|c p IH]; cbn; [tauto|]. intros H. injection H as H. auto.
Qed.

Lemma backup_name_inj (file : string) (i j : Z) :
  0 <= i -> 0 <= j -> backup_name file i = backup_name file j -> i = j.
Proof.
  intros Hi Hj E. unfold backup_name in E.
  apply append_inj_l in E. apply (append_inj_l ".") in E.
  pose proof (parse_format_03d Hi) as Ii. pose proof (parse_format_03d Hj) as Ij.
  rewrite E in Ii. congruence.
Qed.

Lemma length_append (a b : string) :
  String.length (a ++ b) = (String.length a + String.length b)%nat.
Proof. induction a as [|c a IH]; cbn; [reflexivity | now rewrite IH]. Qed.

Lemma backup_name_differs (file : string) (i : Z) : backup_name file i <> file.
Proof.
  intros E. apply (f_equal String.length) in E.
  unfold backup_name in E. rewrite !length_append in E. cbn in E. lia.
Qed.

Lemma path_exists_In (fs : FileSystem) (path : string) :
  path_exists fs path = true -> In path (map fst fs).
Proof.
  unfold path_exists. induction fs as [|[p b] fs IH]; cbn; [discriminate|].
  destruct (String.eqb_spec p path) as [->|_]; [now left | right; now apply IH].
Qed.

Lemma free_index_spec (fs : FileSystem) (file : string) (turns : nat) :
  forall i,
    let r := free_index fs file turns i in
    i <= r <= i + Z.of_nat turns
    /\ (forall j, i <= j < r -> path_exists fs (backup_name file j) = true)
    /\ (path_exists fs (backup_name file r) = true -> r = i + Z.of_nat turns).
Proof.
  induction turns as [|turns IH]; intros i; cbn [free_index].
  - destruct (path_exists fs (backup_name file i)) eqn:E; cbv zeta;
      (split; [lia|]); (split; [intros j Hj; lia|]); intros X; (lia || congruence).
  - destruct (path_exists fs (backup_name file i)) eqn:E; cbv zeta.
    + destruct (IH (i + 1)) as (R & A & L). cbv zeta in *.
      split; [lia|]. split.
      * intros j Hj. destruct (Z.eq_dec j i) as [->|N]; [exact E|].
        apply A. lia.
      * intros X. rewrite (L X). lia.
    + split; [lia|]. split; [intros j Hj; lia|]. intros X. congruence.
Qed.

Lemma free_index_free (fs : FileSystem) (file : string) :
  path_exists fs (backup_name file (free_index fs file (List.length fs) 0)) = false.
Proof.
  destruct (free_index_spec fs file (List.length fs) 0) as (R & A & L).
  cbv zeta in *. set (r := free_index fs file (List.length fs) 0) in *.
  destruct (path_exists fs (backup_name file r)) eqn:E; [|reflexivity].
  exfalso. specialize (L eq_refl). cbn in L.
  set (name := fun k : nat => backup_name file (Z.of_nat k)).
  assert (D : NoDup (map name (seq 0 (S (List.length fs))))).
  { apply Finite.Injective_map_NoDup; [|apply seq_NoDup].
    intros a b H. apply backup_name_inj in H; lia. }
  assert (I : incl (map name (seq 0 (S (List.length fs)))) (map fst fs)).
  { intros p Hp. apply in_map_iff in Hp. destruct Hp as (k & <- & Hk).
    apply in_seq in Hk. apply path_exists_In. unfold name.
    destruct (Z.eq_dec (Z.of_nat k) r) as [->|N]; [exact E|].
    apply A. lia. }
  pose proof (NoDup_incl_length D I) as Len.
  rewrite !length_map, length_seq in Len. lia.
Qed.

(** X19 (backup name).  The index [close] puts in the name of the backup
    is the smallest one whose file does not exist yet: every lower index
    is taken, and the loop that looks for it stops before it has made
    more turns than there are files. *)
Theorem backup_index_is_first_free (fs : FileSystem) (file : string) :
  let i := free_index fs file (List.length fs) 0 in
  0 <= i <= Z.of_nat (List.length fs)
  /\ path_exists fs (backup_name file i) = false
  /\ forall j, 0 <= j < i -> path_exists fs (backup_name file j) = true.
Proof.
  cbv zeta. destruct (free_index_spec fs file (List.length fs) 0) as (R & A & _).
  cbv zeta in *. repeat split; try lia; [apply free_index_free | exact A].
Qed.

Example format_03d_small : format_03d 7 = "007".
Proof. vm_compute. reflexivity. Qed.

Example format_03d_wide : format_03d 1234 = "1234".
Proof. vm_compute. reflexivity. Qed.

Example backup_index_skips_taken :
  free_index [("sb.bnk.001", []); ("sb.bnk", [x00]); ("sb.bnk.000", [])]
             "sb.bnk" 3 0 = 2.
Proof. vm_compute. reflexivity. Qed.

Lemma fs_lookup_remove (fs : FileSystem) (removed path : string) :
  path <> removed -> fs_lookup (fs_remove removed fs) path = fs_lookup fs path.
Proof.
  intros N. induction fs as [|[p b] fs IH]; [reflexivity|].
  cbn [fs_remove filter fst fs_lookup].
  destruct (String.eqb_spec p removed) as [->|N']; cbn [negb fs_lookup].
  - apply not_eq_sym in N. apply String.eqb_neq in N. now rewrite N.
  - destruct (String.eqb p path); [reflexivity | exact IH].
Qed.

(** What [close] does to a bank that was changed. *)
Lemma close_dirty (file : string) (self : InstrumentBank) (fs : FileSystem)
    (original : list byte) :
  dirty self = true ->
  fs_lookup fs file = Some original ->
  let backup := backup_name file (free_index fs file (List.length fs) 0) in
  exists fs',
    close file self fs
    = (fs', match snd (write_file self) with
            | Ok _ => None
            | Raise e => Some e
            end)
    /\ fs_lookup fs' file = Some (fst (write_file self))
    /\ fs_lookup fs' backup = Some original
    /\ forall path, path <> file -> path <> backup ->
                    fs_lookup fs' path = fs_lookup fs path.
Proof.
  intros D L. cbv zeta. unfold close, rename. rewrite D, L.
  destruct (write_file self) as [bytes r]. cbn [fst snd].
  eexists. split; [reflexivity|].
  pose proof (@backup_name_differs file (free_index fs file (List.length fs) 0)) as N.
  unfold fs_write. cbn [fs_lookup]. rewrite String.eqb_refl.
  apply not_eq_sym in N. pose proof N as N'. apply String.eqb_neq in N'.
  rewrite N', String.eqb_refl. repeat split.
  intros path Pf Pb.
  apply not_eq_sym in Pf, Pb. apply String.eqb_neq in Pf, Pb. rewrite Pf, Pb.
  apply fs_lookup_remove. apply String.eqb_neq in Pf. congruence.
Qed.

(** X20 (save with backup).  When a changed bank can be written, [close]
    first moves the file it was opened from to the first free backup
    name, then writes the bank under the old name.  Afterwards the old
    name holds the bytes of [to_file], the backup holds the bytes the
    file had, the backup name was not in use before, and every other file
    is as it was. *)
Theorem close_saves_with_backup (file : string) (self : InstrumentBank)
    (fs : FileSystem) (original out : list byte) :
  dirty self = true ->
  fs_lookup fs file = Some original ->
  to_file self = Ok out ->
  let backup := backup_name file (free_index fs file (List.length fs) 0) in
  exists fs',
    close file self fs = (fs', None)
    /\ fs_lookup fs' file = Some out
    /\ fs_lookup fs' backup = Some original
    /\ path_exists fs backup = false
    /\ forall path, path <> file -> path <> backup ->
                    fs_lookup fs' path = fs_lookup fs path.
Proof.
  intros D L T. cbv zeta.
  destruct (close_dirty file self fs D L) as (fs' & C & Lf & Lb & Lo).
  rewrite (write_file_ok _ T) in C, Lf. cbn [fst snd] in C, Lf.
  exists fs'. repeat split; auto. apply free_index_free.
Qed.

Lemma close_saves_with_backup_witness :
  exists fs' out,
    close "sb.bnk" updated_bank sample_fs = (fs', None)
    /\ to_file updated_bank = Ok out
    /\ fs_lookup fs' "sb.bnk" = Some out
    /\ fs_lookup fs' "sb.bnk.001" = Some three_item_file
    /\ fs_lookup fs' "sb.bnk.000" = Some [x00].
Proof.
  destruct (to_file updated_bank) as [out|] eqn:T; [|vm_compute in T; discriminate].
  destruct (@close_saves_with_backup "sb.bnk" updated_bank sample_fs
              three_item_file out eq_refl eq_refl T)
    as (fs' & C & Lf & Lb & _ & Lo).
  exists fs', out. repeat split; auto.
  rewrite Lo; [reflexivity | discriminate | vm_compute; discriminate].
Defined.

Lemma write_index_entries_bad_id (before : OrderedDict.t AudioItem) :
  forall k audio after offset padding index last e,
    write_index before offset padding = Ok (index, last) ->
    int k = Raise e ->
    write_index_entries (before ++ (k, audio) :: after) offset padding
    = (index, Raise e).
Proof.
  induction before as [|[k0 a0] before IH];
    intros k audio after offset padding index last e W I.
  - cbn in W. injection W as <- _. cbn [app write_index_entries].
    rewrite I. reflexivity.
  - cbn [write_index] in W. cbn [app write_index_entries].
    destruct (int k0) as [i0|]; [|discriminate]. cbn [bind] in W.
    destruct (pack_III _ _ _) as [entry0|] eqn:PK; [|discriminate]. cbn [bind] in W.
    destruct (write_index before _ _) as [[out0 last0]|] eqn:WR; [|discriminate].
    cbn in W. injection W as <- _. wstep.
    rewrite (IH k audio after _ _ _ _ e WR I). wstep. rewrite PK. reflexivity.
Qed.

(** X21 (a save that fails).  When a changed bank holds an id that [int]
    rejects, [close] still moves the original file to the backup name
    first; it then raises the [ValueError] of [int], and the file it
    leaves under the old name stops after the index entries of the items
    that come before that id.  The bytes the file had are in the backup
    only. *)
Theorem close_fails_on_bad_id (file : string) (self : InstrumentBank)
    (fs : FileSystem) (original : list byte) before k audio after index last :
  dirty self = true ->
  fs_lookup fs file = Some original ->
  Forall (fun w => 0 <= w < 2 ^ 32) (header self) ->
  Z.of_nat (List.length (audio_items self)) * 12 < 2 ^ 32 ->
  audio_items self = before ++ (k, audio) :: after ->
  write_index before 0 None = Ok (index, last) ->
  int k = Raise (ValueError_int k) ->
  let backup := backup_name file (free_index fs file (List.length fs) 0) in
  exists fs',
    close file self fs = (fs', Some (ValueError_int k))
    /\ fs_lookup fs' file
       = Some (words (header self)
               ++ (le_bytes MAGIC_DIDX
                   ++ le_bytes (Z.of_nat (List.length (audio_items self)) * 12))
               ++ index)
    /\ fs_lookup fs' backup = Some original.
Proof.
  intros D L Fh Cn E W I. cbv zeta.
  destruct (close_dirty file self fs D L) as (fs' & C & Lf & Lb & _).
  assert (WF : write_file self
               = (words (header self)
                  ++ (le_bytes MAGIC_DIDX
                      ++ le_bytes (Z.of_nat (List.length (audio_items self)) * 12))
                  ++ index,
                  Raise (ValueError_int k))).
  { unfold write_file. rewrite (write_header_ok _ (pack_words_ok Fh)). wstep.
    rewrite pack_II_ok by (exact magic_didx_u32 || lia). wstep.
    rewrite E, (@write_index_entries_bad_id before k audio after 0 None index last _ W I).
    wstep. reflexivity. }
  rewrite WF in C, Lf. cbn [fst snd] in C, Lf.
  exists fs'. repeat split; auto.
Qed.

Lemma close_fails_on_bad_id_witness :
  exists fs',
    close "sb.bnk" renamed_bank named_fs = (fs', Some (ValueError_int "intro"))
    /\ fs_lookup fs' "sb.bnk"
       = Some (words (header three_item_bank)
               ++ (le_bytes MAGIC_DIDX ++ le_bytes 48)
               ++ words [1; 0; 10; 2; 16; 20; 3; 48; 0])
    /\ fs_lookup fs' "sb.bnk.000" = Some three_item_file.
Proof.
  apply (@close_fails_on_bad_id "sb.bnk" renamed_bank named_fs three_item_file
           three_items "intro" (mkAudioItem 1 [x0a]) []
           (words [1; 0; 10; 2; 16; 20; 3; 48; 0]) (Some 0)).
  - reflexivity.
  - reflexivity.
  - repeat constructor; discriminate.
  - reflexivity.
  - reflexivity.
  - vm_compute. reflexivity.
  - vm_compute. reflexivity.
Defined.

(** ** The whole session *)

Lemma setitem_not_nil {V} (k : string) (v : V) (d : OrderedDict.t V) :
  OrderedDict.setitem k v d <> [].
Proof.
  destruct d as [|[k0 v0] d]; cbn; [discriminate|].
  destruct (String.eqb k0 k); discriminate.
Qed.

Section DirtyFacts.
Variable splitext : string -> string * string.

Lemma update_dirty_has_item fs (to_update : list string) :
  forall self,
    (dirty self = true -> audio_items self <> []) ->
    dirty (fst (update splitext fs to_update self)) = true ->
    audio_items (fst (update splitext fs to_update self)) <> [].
Proof.
  induction to_update as [|file rest IH]; intros self H; cbn [update].
  - exact H.
  - destruct (splitext file) as [id ext]. destruct (fs file) as [bytes|]; [|exact H].
    apply IH. intros _. apply setitem_not_nil.
Qed.

Lemma empty_dirty_has_item (to_remove : list string) :
  forall self,
    (dirty self = true -> audio_items self <> []) ->
    dirty (fst (empty splitext to_remove self)) = true ->
    audio_items (fst (empty splitext to_remove self)) <> [].
Proof.
  induction to_remove as [|name rest IH]; intros self H; cbn [empty].
  - exact H.
  - destruct (splitext name) as [id ext]. apply IH. intros _. apply setitem_not_nil.
Qed.
End DirtyFacts.

Lemma to_file_unbound (self : InstrumentBank) (name : string) :
  to_file self = Raise (UnboundLocalError name) -> audio_items self = [].
Proof.
  unfold to_file. intros H.
  destruct (pack_words _) as [hdr|e] eqn:PW; cbn [bind] in H.
  2:{ apply pack_words_raise in PW. congruence. }
  destruct (pack_II MAGIC_DIDX _) as [didx|e] eqn:PD; cbn [bind] in H.
  2:{ apply pack_II_raise in PD. congruence. }
  destruct (write_index _ _ _) as [[index last]|e] eqn:WI; cbn [bind] in H.
  - destruct (write_index_last _ _ _ WI) as [LP _].
    destruct last as [p|]; cbn [bind] in H.
    + destruct (pack_II MAGIC_AUDIO _) as [a|e] eqn:PA; cbn [bind] in H;
        [discriminate|]. apply pack_II_raise in PA. congruence.
    + destruct (audio_items self) as [|e items]; [reflexivity|].
      destruct (last_padding_span e items None) as (p & Ep & _). congruence.
  - exfalso. clear PW PD. revert WI. generalize 0 at 1. generalize (@None Z).
    induction (audio_items self) as [|[k audio] rest IH]; intros padding offset WI;
      [discriminate|].
    cbn [write_index] in WI.
    destruct (int k) as [i|e0] eqn:I; cbn [bind] in WI.
    + destruct (pack_III _ _ _) as [entry|e0] eqn:PK; cbn [bind] in WI.
      * destruct (write_index rest _ _) as [[out l]|e0] eqn:WR; cbn in WI;
          [discriminate|].
        injection WI as ->. injection H as ->. eapply IH. exact WR.
      * apply pack_III_raise in PK. congruence.
    + apply int_raise in I. congruence.
Qed.

(** X22 (a changed bank has an item).  In every bank a session can hold,
    [dirty] is set only when the mapping has at least one item: the
    parser leaves it clear and each mutation that sets it stores an item.
    So the save that [close] makes of a changed bank never ends on the
    unbound [padding] of an empty mapping. *)
Theorem dirty_bank_has_item (bank : InstrumentBank) :
  reachable bank ->
  dirty bank = true ->
  audio_items bank <> []
  /\ forall name, to_file bank <> Raise (UnboundLocalError name).
Proof.
  intros R D.
  assert (N : audio_items bank <> []).
  { revert D. induction R as [file bank P | splitext fs files bank R IH
                              | splitext names bank R IH]; intros D.
    - apply parse_parsed in P. destruct P as [_ _ _ _ Dd]. congruence.
    - now apply update_dirty_has_item.
    - now apply empty_dirty_has_item. }
  split; [exact N|]. intros name T. apply to_file_unbound in T. contradiction.
Qed.

Lemma dirty_bank_has_item_witness :
  audio_items (fst (empty posix_splitext ["9"] empty_bank)) <> [].
Proof.
  apply dirty_bank_has_item; [|reflexivity].
  apply reachable_empty, (reachable_parse empty_bank_file).
  vm_compute. reflexivity.
Defined.

Section ScriptFacts.
Variable splitext : string -> string * string.
Variable decode : list byte -> string.

Lemma extract_loop_names (files : list string) (self : InstrumentBank) :
  Forall (fun w => exists id, fst w = (id ++ ".wem")%string)
         (fst (extract_loop splitext files self)).
Proof.
  induction files as [|file files IH]; cbn [extract_loop]; [constructor|].
  destruct (splitext file) as [id ext].
  destruct (OrderedDict.getitem id (audio_items self)) as [audio|e]; [|constructor].
  destruct (extract_loop splitext files self) as [written e]. cbn [fst] in *.
  constructor; [now exists id | exact IH].
Qed.

Lemma close_clean (file : string) (self : InstrumentBank) (fs : FileSystem) :
  dirty self = false -> close file self fs = (fs, None).
Proof. intros D. unfold close. now rewrite D. Qed.
End ScriptFacts.

(** X23 (a session that only lists or extracts).  When the script is run
    without [--update] and without [--empty], the files it leaves are
    the files it found with the [.wem] files of the extraction written
    over them: [close] writes nothing and makes no backup, whether the
    bank parses or not and whether the extraction ends on an unknown id
    or not. *)
Theorem read_only_session (splitext : string -> string * string)
    (decode : list byte -> string) (args : Args) (fs : FileSystem) :
  arg_update args = None ->
  arg_empty args = None ->
  exists written,
    fst (main splitext decode args fs) = write_all written fs
    /\ Forall (fun w => exists id, fst w = (id ++ ".wem")%string) written
    /\ (arg_extract args = None -> written = []).
Proof.
  intros U E. unfold main.
  destruct (fs_lookup fs (arg_bank args)) as [bytes|];
    [|exists []; repeat split; constructor].
  destruct (_parse bytes) as [bank|e] eqn:P; [|exists []; repeat split; constructor].
  apply parse_parsed in P. destruct P as [_ _ _ _ Dd].
  unfold with_body, run_extract, run_update, run_empty. rewrite U, E.
  destruct (arg_extract args) as [names|].
  - destruct (expand_item_list (read_text_of decode fs) names) as [files|e].
    + pose proof (extract_loop_names splitext
                    match files with
                    | [] => map (fun id => (id ++ ".wem")%string)
                                (OrderedDict.keys (audio_items bank))
                    | _ :: _ => files
                    end bank) as F.
      unfold extract.
      destruct (extract_loop splitext _ bank) as [written [e|]]; cbn [fst] in F;
        rewrite (@close_clean _ bank _ Dd); exists written; repeat split; auto;
        discriminate.
    + rewrite (@close_clean _ bank _ Dd). exists [].
      repeat split; try constructor; discriminate.
  - rewrite (@close_clean _ bank _ Dd). exists []. repeat split; constructor.
Qed.

Lemma read_only_session_witness :
  exists written,
    fst (main posix_splitext string_of_list_byte extract_args sample_fs)
    = write_all written sample_fs
    /\ Forall (fun w => exists id, fst w = (id ++ ".wem")%string) written
    /\ (arg_extract extract_args = None -> written = []).
Proof.
  apply (read_only_session posix_splitext string_of_list_byte extract_args
           sample_fs eq_refl eq_refl).
Defined.

Example read_only_session_run :
  main posix_splitext string_of_list_byte extract_args sample_fs
  = (("2.wem", repeat x02 20) :: sample_fs, Some (KeyError "999")).
Proof. vm_compute. reflexivity. Qed.

(** X24 (a batch that fails is saved all the same).  The script closes
    the bank when the [with] block is left by an exception too.  So when
    [--update] names a file that cannot be opened after files that can,
    the run ends with [FileNotFoundError] and yet the bank file has been
    rewritten: it holds the bank with the files named before the missing
    one applied, and the bytes it had are in the backup. *)
Theorem failed_update_is_saved (splitext : string -> string * string)
    (decode : list byte -> string) (args : Args) (fs : FileSystem)
    (bytes out : list byte) (bank : InstrumentBank)
    (before after : list string) (missing : string) :
  fs_lookup fs (arg_bank args) = Some bytes ->
  _parse bytes = Ok bank ->
  arg_extract args = None ->
  arg_update args = Some (before ++ missing :: after) ->
  Forall (fun i => startswith_bracket i && endswith_bracket i = false)
         (before ++ missing :: after) ->
  Forall (fun file => fs_lookup fs file <> None) before ->
  before <> [] ->
  fs_lookup fs missing = None ->
  to_file (fst (update splitext (fs_lookup fs) before bank)) = Ok out ->
  let backup :=
    backup_name (arg_bank args)
                (free_index fs (arg_bank args) (List.length fs) 0) in
  exists fs',
    main splitext decode args fs = (fs', Some (FileNotFoundError missing))
    /\ fs_lookup fs' (arg_bank args) = Some out
    /\ fs_lookup fs' backup = Some bytes.
Proof.
  intros L P X U Pl F N M T. cbv zeta.
  pose proof (@update_all_found splitext (fs_lookup fs) before F bank) as S.
  assert (UP : update splitext (fs_lookup fs) (before ++ missing :: after) bank
               = (fst (update splitext (fs_lookup fs) before bank),
                  Some (FileNotFoundError missing))).
  { rewrite update_app, S. cbn [update]. destruct (splitext missing). now rewrite M. }
  assert (D : dirty (fst (update splitext (fs_lookup fs) before bank)) = true).
  { destruct before as [|file before]; [congruence|].
    inversion F as [|? ? Hf _]; subst. cbn [update].
    destruct (splitext file) as [id ext].
    destruct (fs_lookup fs file) as [b|]; [|congruence].
    now apply update_frame. }
  destruct (close_dirty (arg_bank args) _ fs D L) as (fs' & C & Lf & Lb & _).
  rewrite (write_file_ok _ T) in C, Lf. cbn [fst snd] in C, Lf.
  exists fs'. split; [|split; assumption].
  unfold main. rewrite L, P. unfold with_body, run_extract, run_update.
  rewrite X, U, (expand_plain _ Pl), UP.
  replace (match before ++ missing :: after with
           | [] => (bank, None)
           | _ :: _ =>
               (fst (update splitext (fs_lookup fs) before bank),
                Some (FileNotFoundError missing))
           end)
    with (fst (update splitext (fs_lookup fs) before bank),
          Some (FileNotFoundError missing))
    by (destruct before; [congruence | reflexivity]).
  now rewrite C.
Qed.

Lemma failed_update_is_saved_witness :
  exists fs' out,
    main posix_splitext string_of_list_byte update_args sample_fs
    = (fs', Some (FileNotFoundError "8.wem"))
    /\ to_file updated_bank = Ok out
    /\ fs_lookup fs' "sb.bnk" = Some out
    /\ fs_lookup fs' "sb.bnk.001" = Some three_item_file.
Proof.
  destruct (to_file updated_bank) as [out|] eqn:T; [|vm_compute in T; discriminate].
  assert (Pl : Forall (fun i => startswith_bracket i && endswith_bracket i = false)
                      (["7.wem"] ++ "8.wem" :: []))
    by (repeat constructor).
  assert (F : Forall (fun file => fs_lookup sample_fs file <> None) ["7.wem"])
    by (repeat constructor; discriminate).
  assert (N : ["7.wem"] <> []) by discriminate.
  assert (P : _parse three_item_file = Ok three_item_bank)
    by (vm_compute; reflexivity).
  destruct (@failed_update_is_saved posix_splitext string_of_list_byte update_args
              sample_fs three_item_file out three_item_bank ["7.wem"] [] "8.wem"
              eq_refl P eq_refl eq_refl Pl F N eq_refl T)
    as (fs' & E & Lf & Lb).
  exists fs', out. repeat split; assumption.
Defined.

(** X25 (the listing names the extracted files).  Without [verbose],
    [print_list] prints one line per item, and these lines are, in the
    same order, the names of the files [extract] writes when it is called
    without names, for a bank that lists no id twice and whose ids
    [splitext] gives back from [id.wem]. *)
Theorem listing_matches_extraction (splitext : string -> string * string)
    (self : InstrumentBank) :
  NoDup (OrderedDict.keys (audio_items self)) ->
  (forall id, In id (OrderedDict.keys (audio_items self)) ->
              fst (splitext (id ++ ".wem")%string) = id) ->
  print_list false self = map fst (fst (extract splitext None self))
  /\ List.length (print_list false self) = List.length (audio_items self).
Proof.
  intros D S. unfold print_list. cbn [app]. split; [|now rewrite length_map].
  unfold extract. rewrite extract_loop_all.
  - cbn [fst]. rewrite map_map. apply map_ext. now intros [k audio].
  - intros [k audio] He. cbn [fst snd]. split.
    + apply S. unfold OrderedDict.keys. change k with (fst (k, audio)).
      now apply in_map.
    + now apply getitem_NoDup.
Qed.

Lemma listing_matches_extraction_witness :
  print_list false three_item_bank
  = map fst (fst (extract posix_splitext None three_item_bank)).
Proof.
  apply (@listing_matches_extraction posix_splitext three_item_bank).
  - repeat constructor; vm_compute; intuition discriminate.
  - vm_compute. intros id [<-|[<-|[<-|[]]]]; reflexivity.
Defined.

Example print_list_verbose :
  print_list true three_item_bank
  = ["3 audio items"; "1.wem : 10 bytes"; "2.wem : 20 bytes"; "3.wem : 0 bytes"].
Proof. vm_compute. reflexivity. Qed.

(** ** The exceptions that can escape *)

Lemma unpack_IIII_raise (bs : list byte) (e : exn) :
  unpack_IIII bs = Raise e -> e = StructError.
Proof.
  do 17 (destruct bs as [|? bs]; try (cbn; congruence)).
Qed.

Lemma unpack_III_raise (bs : list byte) (e : exn) :
  unpack_III bs = Raise e -> e = StructError.
Proof.
  do 13 (destruct bs as [|? bs]; try (cbn; congruence)).
Qed.

Lemma unpack_II_raise (bs : list byte) (e : exn) :
  unpack_II bs = Raise e -> e = StructError.
Proof.
  do 9 (destruct bs as [|? bs]; try (cbn; congruence)).
Qed.

Lemma read_header_raise (header1 : Z) (s : list byte) :
  forall current_pos e,
    read_header header1 current_pos s = Raise e -> e = StructError.
Proof.
  assert (G : forall n s, (List.length s <= n)%nat -> forall current_pos e,
                read_header header1 current_pos s = Raise e -> e = StructError).
  { clear s. induction n as [|n IH]; intros s L cur e H.
    - destruct s; [|cbn in L; lia]. cbn in H.
      destruct (cur <? header1 + 8); congruence.
    - destruct s as [|a0 [|a1 [|a2 [|a3 s']]]]; cbn in H;
        destruct (cur <? header1 + 8); try congruence.
      destruct (read_header header1 (cur + 4) s') as [[ws r]|e'] eqn:E;
        [discriminate|].
      injection H as <-. apply (IH s') in E; [exact E|]. cbn in L. lia. }
  intros cur e. apply (G (List.length s)). lia.
Qed.

Lemma read_index_raise (n : nat) :
  forall items s e, read_index n items s = Raise e -> e = StructError.
Proof.
  induction n as [|n IH]; intros items s e H; [discriminate|].
  cbn [read_index] in H. unfold rbind, read, lift in H.
  destruct (unpack_III _) as [[[id offset] length]|e'] eqn:U.
  - eapply IH. exact H.
  - apply unpack_III_raise in U. congruence.
Qed.

Lemma read_audio_raise (items : OrderedDict.t AudioItem) :
  forall padding s e, read_audio items padding s = Raise e -> e = EOFError.
Proof.
  induction items as [|[id audio] rest IH]; intros padding s e H; [discriminate|].
  cbn [read_audio] in H. unfold rbind, read, fromfile in H.
  destruct (_ <? _); [congruence|].
  destruct (read_audio rest _ _) as [[rest' s2]|e'] eqn:RA; [discriminate|].
  injection H as <-. eapply IH. exact RA.
Qed.

(** X26 (what the parser can raise).  When a file does not parse, the
    exception is [struct.error] for a header, a descriptor or an index
    entry that is cut short, the [ValueError] of one of the two magic
    words, or [EOFError] for a payload that is cut short; nothing else
    escapes. *)
Theorem parse_exceptions (file : list byte) (e : exn) :
  _parse file = Raise e ->
  e = StructError
  \/ (exists magic, magic <> MAGIC_DIDX
                    /\ e = ValueError (magic_message MAGIC_DIDX magic))
  \/ (exists magic, magic <> MAGIC_AUDIO
                    /\ e = ValueError (magic_message MAGIC_AUDIO magic))
  \/ e = EOFError.
Proof.
  unfold _parse. destruct (parse_file file) as [[b r]|e'] eqn:P; [discriminate|].
  intros H. injection H as ->. revert P.
  unfold parse_file, rbind, read, lift, raise, read_all, rret.
  destruct (unpack_IIII _) as [head|e1] eqn:U1.
  2:{ intros H. apply unpack_IIII_raise in U1. left. congruence. }
  destruct (read_header _ _ _) as [[more s1]|e1] eqn:RH.
  2:{ intros H. apply read_header_raise in RH. left. congruence. }
  destruct (unpack_II _) as [[magic didx_len]|e1] eqn:U2.
  2:{ intros H. apply unpack_II_raise in U2. left. congruence. }
  destruct (Z.eqb_spec magic MAGIC_DIDX) as [->|N]; cbn [negb].
  2:{ intros H. right. left. exists magic. split; [exact N | congruence]. }
  destruct (read_index _ _ _) as [[items0 s2]|e1] eqn:RI.
  2:{ intros H. apply read_index_raise in RI. left. congruence. }
  destruct (unpack_II (firstn _ s2)) as [[magic audio_len]|e1] eqn:U3.
  2:{ intros H. apply unpack_II_raise in U3. left. congruence. }
  destruct (Z.eqb_spec magic MAGIC_AUDIO) as [->|N]; cbn [negb].
  2:{ intros H. right. right. left. exists magic. split; [exact N | congruence]. }
  destruct (read_audio _ _ _) as [[items tr]|e1] eqn:RA; [discriminate|].
  intros H. apply read_audio_raise in RA. right. right. right. congruence.
Qed.

Lemma parse_exceptions_witness :
  _parse short_payload_file = Raise EOFError
  /\ (EOFError = StructError
      \/ (exists magic, magic <> MAGIC_DIDX
                        /\ EOFError = ValueError (magic_message MAGIC_DIDX magic))
      \/ (exists magic, magic <> MAGIC_AUDIO
                        /\ EOFError = ValueError (magic_message MAGIC_AUDIO magic))
      \/ EOFError = EOFError).
Proof.
  split; [vm_compute; reflexivity|].
  apply (parse_exceptions short_payload_file). vm_compute. reflexivity.
Defined.

Lemma write_index_raise (items : OrderedDict.t AudioItem) :
  forall offset padding e,
    write_index items offset padding = Raise e ->
    e = StructError \/ exists k, In k (OrderedDict.keys items) /\ e = ValueError_int k.
Proof.
  induction items as [|[k audio] rest IH]; intros offset padding e W; [discriminate|].
  cbn [write_index] in W.
  destruct (int k) as [i|e0] eqn:I; cbn [bind] in W.
  - destruct (pack_III _ _ _) as [entry|e0] eqn:PK; cbn [bind] in W.
    + destruct (write_index rest _ _) as [[out l]|e0] eqn:WR; cbn in W;
        [discriminate|].
      injection W as <-. destruct (IH _ _ _ WR) as [->|(k' & Hk & ->)];
        [now left | right; exists k'; split; [now right | reflexivity]].
    + apply pack_III_raise in PK. left. congruence.
  - apply int_raise in I. right. exists k. split; [now left | congruence].
Qed.

(** X27 (what [to_file] can raise).  When a bank is not written, the
    exception is [struct.error] for a number that does not fit 32 bits,
    the [ValueError] of [int] for an id of the bank, or the unbound
    [padding], and the last one only for a bank without items. *)
Theorem to_file_exceptions (self : InstrumentBank) (e : exn) :
  to_file self = Raise e ->
  e = StructError
  \/ (exists k, In k (OrderedDict.keys (audio_items self)) /\ e = ValueError_int k)
  \/ (e = UnboundLocalError "padding" /\ audio_items self = []).
Proof.
  intros H. pose proof H as H0. unfold to_file in H.
  destruct (pack_words _) as [hdr|e0] eqn:PW; cbn [bind] in H.
  2:{ apply pack_words_raise in PW. left. congruence. }
  destruct (pack_II MAGIC_DIDX _) as [didx|e0] eqn:PD; cbn [bind] in H.
  2:{ apply pack_II_raise in PD. left. congruence. }
  destruct (write_index _ _ _) as [[index last]|e0] eqn:WI; cbn [bind] in H.
  - destruct last as [p|]; cbn [bind] in H.
    + destruct (pack_II MAGIC_AUDIO _) as [a|e0] eqn:PA; cbn [bind] in H;
        [discriminate|]. apply pack_II_raise in PA. left. congruence.
    + injection H as <-. right. right. split; [reflexivity|].
      now apply to_file_unbound in H0.
  - injection H as <-. destruct (write_index_raise _ _ _ WI) as [->|X];
      [now left | right; now left].
Qed.

Lemma to_file_exceptions_witness :
  exists k, In k (OrderedDict.keys (audio_items named_bank))
            /\ ValueError_int "intro" = ValueError_int k.
Proof.
  destruct (@to_file_exceptions named_bank (ValueError_int "intro"))
    as [H|[H|[H _]]]; [vm_compute; reflexivity | discriminate | exact H | discriminate].
Defined.
